(** * esmeralda collector: a shallow embedding of [collector/collector.go]

    The collector is a three-stage pipeline.  Spans arrive through the HTTP
    handler ([HTTPCollector]) or the Kafka consumer loop ([kafkaRoutine]) and
    are handed over [SpansProcessingChan]; [queueRoutine] assembles them into
    documents and accumulates them in [DocumentQueue]; [documentRoutine]
    receives full batches from [DocumentQueueChan] and writes them to
    Elasticsearch with one bulk request per batch.

    Conventions of the embedding.
    - A Go [int] is a [Z]; [len] of a slice is [Z.of_nat (length _)].
    - A Go pair [(value, err)] is a sum [value + error] where the code only
      uses the value when [err == nil], and a pair with an [option error]
      where it uses the value regardless.
    - A channel is the list of values that were handed over it, oldest first.
      A send that may find no receiver takes the number of receives the
      other side still performs (modules [Consumer], [Backpressure] and
      [Handoff]).
    - A goroutine's infinite [for { select { ... } }] is a fold over the list
      of [select] outcomes the environment offers it; when the list runs out
      the goroutine is parked in [select] and has not returned.
    - Packages that are not part of [collector.go] ([trace], [setting],
      [storage], the Elasticsearch and Kafka clients) are Section variables. *)

From Stdlib Require Import ZArith Lia.
From stdpp Require Import base list strings gmap.

(** Go's [error] interface; only its identity matters here. *)
Definition error := string.

(** [trace.Document], with the four fields [collector.go] reads. *)
Record Document := mkDocument {
  IndexName : string;
  IndexBaseName : string;
  TypeName : string;
  Payload : string
}.

#[global] Instance Document_eq_dec : EqDecision Document.
Proof. solve_decision. Defined.

(** ** Batch accumulator: [queueRoutine] and its closure [assignSpansToQueue] *)
Module Accumulator.

Section queueRoutine.
(** [trace.Span] and its method [AssembleDocument]. *)
Variable Span : Type.
Variable AssembleDocument : Span -> Document + error.
(** [setting.Settings.Elasticsearch.Bulk]. *)
Variable Bulk : Z.

Inductive LogEntry :=
| InfoStart
| WarnSpanEncode (err : error) (span : Span)
| InfoDone.

(** The fields of [CollectorService] the accumulator touches.
    [DocumentQueueChan] holds the batches sent so far.  In this module every
    send on it completes; module [Backpressure] below gives the routine
    with the send blocking when the persister takes no more batches, and
    shows that its batches are a prefix of the ones listed here.  [Mux] is
    taken by this goroutine only and is not represented. *)
Record CollectorService := mkService {
  DocumentQueue : list Document;
  DocumentQueueChan : list (list Document);
  Log : list LogEntry
}.

Definition NewCollectorService : CollectorService :=
  {| DocumentQueue := []; DocumentQueueChan := []; Log := [] |}.

Definition logrus (e : LogEntry) (s : CollectorService) : CollectorService :=
  {| DocumentQueue := DocumentQueue s;
     DocumentQueueChan := DocumentQueueChan s;
     Log := Log s ++ [e] |}.

(** The critical section between [Mux.Lock] and [Mux.Unlock]. *)
Definition appendOrFlush (doc : Document) (s : CollectorService) : CollectorService :=
  if (Z.of_nat (length (DocumentQueue s)) <? Bulk)%Z then
    {| DocumentQueue := DocumentQueue s ++ [doc];
       DocumentQueueChan := DocumentQueueChan s;
       Log := Log s |}
  else
    (* queue := copy of DocumentQueue; DocumentQueueChan <- &queue;
       DocumentQueue = []trace.Document{} *)
    {| DocumentQueue := [];
       DocumentQueueChan := DocumentQueueChan s ++ [DocumentQueue s];
       Log := Log s |}.

Fixpoint assignSpansToQueue (spans : list Span) (s : CollectorService) : CollectorService :=
  match spans with
  | [] => s
  | span :: rest =>
      match AssembleDocument span with
      | inr err => assignSpansToQueue rest (logrus (WarnSpanEncode err span) s)
      | inl doc => assignSpansToQueue rest (appendOrFlush doc s)
      end
  end.

(** What one [select] of the loop yields; [spans] is the slice the
    received pointer refers to. *)
Inductive Select :=
| RecvSpans (spans : list Span)
| CtxDone (err : error).

Fixpoint queueLoop (events : list Select) (s : CollectorService)
  : CollectorService * option error :=
  match events with
  | [] => (s, None)
  | RecvSpans spans :: rest => queueLoop rest (assignSpansToQueue spans s)
  | CtxDone err :: _ => (logrus InfoDone s, Some err)
  end.

Definition queueRoutine (events : list Select) (s : CollectorService)
  : CollectorService * option error :=
  queueLoop events (logrus InfoStart s).

End queueRoutine.

Arguments InfoStart {Span}.
Arguments InfoDone {Span}.
Arguments WarnSpanEncode {Span} err span.
Arguments RecvSpans {Span} spans.
Arguments CtxDone {Span} err.
Arguments NewCollectorService {Span}.
Arguments DocumentQueue {Span} _.
Arguments DocumentQueueChan {Span} _.
Arguments Log {Span} _.
Arguments appendOrFlush {Span} Bulk doc s.
Arguments logrus {Span} e s.

(** Three documents and a span type whose assembly never fails, for the
    concrete runs below. *)
Definition D1 : Document := mkDocument "traces-1" "traces" "span" "p1".
Definition D2 : Document := mkDocument "traces-1" "traces" "span" "p2".
Definition D3 : Document := mkDocument "traces-1" "traces" "span" "p3".
Definition assembled (d : Document) : Document + error := inl d.

(** The documents a service holds: those buffered and those in batches
    already sent. *)
Definition held {Span} (s : CollectorService Span) : nat :=
  length (DocumentQueue s) + sum_list_with length (DocumentQueueChan s).

(** The number of spans of a sequence whose assembly succeeds. *)
Fixpoint assembling {Span} (AssembleDocument : Span -> Document + error)
    (spans : list Span) : nat :=
  match spans with
  | [] => 0
  | span :: rest =>
      match AssembleDocument span with
      | inl _ => S (assembling AssembleDocument rest)
      | inr _ => assembling AssembleDocument rest
      end
  end.

(** The documents a span sequence assembles to, in order, and the warnings
    logged for the spans that do not assemble. *)
Fixpoint assembledDocuments {Span} (AssembleDocument : Span -> Document + error)
    (spans : list Span) : list Document :=
  match spans with
  | [] => []
  | span :: rest =>
      match AssembleDocument span with
      | inl doc => doc :: assembledDocuments AssembleDocument rest
      | inr _ => assembledDocuments AssembleDocument rest
      end
  end.

Fixpoint assemblyWarnings {Span} (AssembleDocument : Span -> Document + error)
    (spans : list Span) : list (LogEntry Span) :=
  match spans with
  | [] => []
  | span :: rest =>
      match AssembleDocument span with
      | inl _ => assemblyWarnings AssembleDocument rest
      | inr err => WarnSpanEncode err span :: assemblyWarnings AssembleDocument rest
      end
  end.

(** The spans the loop receives before the first [ctx.Done], and the error
    of that [ctx.Done] if there is one. *)
Fixpoint received {Span} (events : list (Select Span)) : list Span :=
  match events with
  | RecvSpans spans :: rest => spans ++ received rest
  | _ => []
  end.

Fixpoint cancelled {Span} (events : list (Select Span)) : option error :=
  match events with
  | [] => None
  | RecvSpans _ :: rest => cancelled rest
  | CtxDone err :: _ => Some err
  end.

(** The documents that left the accumulator or wait in it, in the order
    the persister will see them: the batches sent, then the buffer. *)
Definition delivered {Span} (s : CollectorService Span) : list Document :=
  concat (DocumentQueueChan s) ++ DocumentQueue s.

(** The buffer never grows past the threshold and every batch sent so far
    was exactly full. *)
Definition full_batches {Span} (Bulk : Z) (s : CollectorService Span) : Prop :=
  (Z.of_nat (length (DocumentQueue s)) <= Bulk)%Z /\
  Forall (fun batch => Z.of_nat (length batch) = Bulk) (DocumentQueueChan s).

Section invariant.
Context {Span : Type}.
Variable AssembleDocument : Span -> Document + error.
Variable Bulk : Z.
Hypothesis Bulk_nonneg : (0 <= Bulk)%Z.

Lemma full_batches_init : full_batches Bulk (@NewCollectorService Span).
Proof. split; simpl; [lia | constructor]. Qed.

Lemma full_batches_logrus e (s : CollectorService Span) :
  full_batches Bulk s -> full_batches Bulk (logrus e s).
Proof. intros [H1 H2]. split; assumption. Qed.

Lemma full_batches_appendOrFlush doc (s : CollectorService Span) :
  full_batches Bulk s -> full_batches Bulk (appendOrFlush Bulk doc s).
Proof.
  intros [Hlen Hsent]. unfold appendOrFlush.
  destruct (Z.ltb_spec (Z.of_nat (length (DocumentQueue s))) Bulk) as [Hlt | Hge].
  - split; simpl; [| assumption].
    rewrite length_app. simpl. lia.
  - split; simpl; [lia |].
    apply Forall_app. split; [assumption |].
    constructor; [lia | constructor].
Qed.

Lemma full_batches_assign spans s :
  full_batches Bulk s ->
  full_batches Bulk (assignSpansToQueue Span AssembleDocument Bulk spans s).
Proof.
  revert s. induction spans as [| span rest IH]; intros s Hs; simpl; [assumption |].
  destruct (AssembleDocument span) as [doc | err]; apply IH.
  - now apply full_batches_appendOrFlush.
  - now apply full_batches_logrus.
Qed.

Lemma full_batches_loop events s :
  full_batches Bulk s ->
  full_batches Bulk (fst (queueLoop Span AssembleDocument Bulk events s)).
Proof.
  revert s. induction events as [| ev rest IH]; intros s Hs; simpl; [assumption |].
  destruct ev as [spans | err]; simpl.
  - apply IH. now apply full_batches_assign.
  - now apply full_batches_logrus.
Qed.

Lemma full_batches_queueRoutine events :
  full_batches Bulk
    (fst (queueRoutine Span AssembleDocument Bulk events NewCollectorService)).
Proof.
  unfold queueRoutine. apply full_batches_loop.
  apply full_batches_logrus, full_batches_init.
Qed.
End invariant.

(** In the flush branch the incoming document is neither appended nor
    sent: the new buffer is empty and the batch is the old buffer. *)
Lemma appendOrFlush_overflow {Span} Bulk doc (s : CollectorService Span) :
  (Bulk <= Z.of_nat (length (DocumentQueue s)))%Z ->
  DocumentQueue (appendOrFlush Bulk doc s) = [] /\
  DocumentQueueChan (appendOrFlush Bulk doc s) = DocumentQueueChan s ++ [DocumentQueue s].
Proof.
  intros H. unfold appendOrFlush.
  destruct (Z.ltb_spec (Z.of_nat (length (DocumentQueue s))) Bulk); [lia |].
  split; reflexivity.
Qed.

(** Each flush loses exactly one document: the documents held after
    [assignSpansToQueue], plus one per batch sent, are the documents held
    before plus the spans that assembled. *)
Lemma one_document_lost_per_flush {Span} (AssembleDocument : Span -> Document + error)
    Bulk spans : forall s : CollectorService Span,
  let s' := assignSpansToQueue Span AssembleDocument Bulk spans s in
  held s' + length (DocumentQueueChan s') =
  held s + length (DocumentQueueChan s) + assembling AssembleDocument spans.
Proof.
  induction spans as [| span rest IH]; intros s; simpl; [lia |].
  simpl in IH.
  destruct (AssembleDocument span) as [doc | err].
  - rewrite IH. unfold appendOrFlush, held.
    destruct (Z.of_nat (length (DocumentQueue s)) <? Bulk)%Z; simpl.
    + rewrite length_app. simpl. lia.
    + rewrite sum_list_with_app, length_app. simpl. lia.
  - rewrite IH. unfold held. simpl. lia.
Qed.

(** C1 (evaluation at the failing input).  With threshold 2 and one span
    sequence assembling to D1, D2, D3, the third document finds the buffer
    full: [D1; D2] is flushed, the buffer is reset, and D3 is in neither
    the buffer nor any flushed batch when [assignSpansToQueue] returns. *)
Lemma overflow_document_dropped :
  let s := assignSpansToQueue Document assembled 2 [D1; D2; D3] NewCollectorService in
  DocumentQueue s = [] /\
  DocumentQueueChan s = [[D1; D2]] /\
  (D3 ∉ DocumentQueue s) /\
  Forall (fun batch => D3 ∉ batch) (DocumentQueueChan s).
Proof.
  vm_compute. repeat split.
  - apply not_elem_of_nil.
  - repeat constructor. intros H.
    repeat (apply elem_of_cons in H as [H | H]; [discriminate H |]).
    now apply not_elem_of_nil in H.
Qed.

(** C2 (counterexample).  With threshold 0 the first assembled document
    already finds [len(DocumentQueue) < Bulk] false, so the empty buffer is
    sent as a batch. *)
Lemma empty_batch_flushed :
  let s := fst (queueRoutine Document assembled 0 [RecvSpans [D1]] NewCollectorService) in
  DocumentQueueChan s = [[]] /\
  Exists (fun batch => batch = []) (DocumentQueueChan s).
Proof. vm_compute. split; [reflexivity | now constructor]. Qed.

(** C2 (amended).  For a threshold of at least 1, every batch
    [queueRoutine] has sent on [DocumentQueueChan], after any sequence of
    [select] outcomes from the initial service, is non-empty and no longer
    than the threshold. *)
Theorem flushed_batch_bounded {Span} (AssembleDocument : Span -> Document + error)
    (Bulk : Z) (events : list (Select Span)) :
  (1 <= Bulk)%Z ->
  forall batch,
    batch ∈ DocumentQueueChan
      (fst (queueRoutine Span AssembleDocument Bulk events NewCollectorService)) ->
    batch <> [] /\ (Z.of_nat (length batch) <= Bulk)%Z.
Proof.
  intros HB batch Hin.
  destruct (full_batches_queueRoutine AssembleDocument Bulk ltac:(lia) events) as [_ Hall].
  rewrite Forall_forall in Hall. specialize (Hall batch Hin).
  split; [| lia].
  intros ->. simpl in Hall. lia.
Qed.

(** The run of scenario 1: threshold 2, documents D1, D2, D3. *)
Lemma flushed_batch_bounded_witness :
  (1 <= 2)%Z /\ [D1; D2] <> [] /\ (Z.of_nat (length [D1; D2]) <= 2)%Z.
Proof.
  split; [lia |].
  apply (flushed_batch_bounded assembled 2 [RecvSpans [D1; D2; D3]]); [lia |].
  vm_compute. apply list_elem_of_here.
Defined.

(** C9.  For a fixed threshold of at least 1, the buffer never holds more
    documents than the threshold and every batch [queueRoutine] has sent
    on [DocumentQueueChan] has length exactly the threshold; this covers
    every path of the routine, the [ctx.Done] exit included, which sends
    nothing. *)
Theorem flushed_batch_exactly_full {Span} (AssembleDocument : Span -> Document + error)
    (Bulk : Z) (events : list (Select Span)) :
  (1 <= Bulk)%Z ->
  let s := fst (queueRoutine Span AssembleDocument Bulk events NewCollectorService) in
  (Z.of_nat (length (DocumentQueue s)) <= Bulk)%Z /\
  forall batch, batch ∈ DocumentQueueChan s -> Z.of_nat (length batch) = Bulk.
Proof.
  intros HB s.
  destruct (full_batches_queueRoutine AssembleDocument Bulk ltac:(lia) events) as [Hlen Hall].
  split; [exact Hlen |].
  intros batch Hin. rewrite Forall_forall in Hall. exact (Hall batch Hin).
Qed.

(** The run of scenario 1 followed by cancellation: one batch, [D1; D2]. *)
Lemma flushed_batch_exactly_full_witness :
  (1 <= 2)%Z /\
  let s := fst (queueRoutine Document assembled 2
                  [RecvSpans [D1; D2; D3]; CtxDone "context canceled"]
                  NewCollectorService) in
  (Z.of_nat (length (DocumentQueue s)) <= 2)%Z /\
  forall batch, batch ∈ DocumentQueueChan s -> Z.of_nat (length batch) = 2%Z.
Proof.
  split; [lia |].
  apply (flushed_batch_exactly_full assembled 2
           [RecvSpans [D1; D2; D3]; CtxDone "context canceled"]).
  lia.
Defined.

(** *** Further properties of the accumulator *)

Section accumulating.
Context {Span : Type}.
Variable AssembleDocument : Span -> Document + error.
Variable Bulk : Z.

Local Abbreviation assign := (assignSpansToQueue Span AssembleDocument Bulk).
Local Abbreviation loop := (queueLoop Span AssembleDocument Bulk).
Local Abbreviation step := (fun (s : CollectorService Span) doc => appendOrFlush Bulk doc s).

Lemma assign_app spans1 spans2 : forall s,
  assign (spans1 ++ spans2) s = assign spans2 (assign spans1 s).
Proof.
  induction spans1 as [| span rest IH]; intros s; simpl; [reflexivity |].
  destruct (AssembleDocument span); apply IH.
Qed.

Lemma assembling_length spans :
  assembling AssembleDocument spans = length (assembledDocuments AssembleDocument spans).
Proof.
  induction spans as [| span rest IH]; simpl; [reflexivity |].
  destruct (AssembleDocument span); simpl; now rewrite IH.
Qed.

Lemma step_buffers docs : forall s1 s2 : CollectorService Span,
  DocumentQueue s1 = DocumentQueue s2 ->
  DocumentQueueChan s1 = DocumentQueueChan s2 ->
  DocumentQueue (foldl step s1 docs) = DocumentQueue (foldl step s2 docs) /\
  DocumentQueueChan (foldl step s1 docs) = DocumentQueueChan (foldl step s2 docs).
Proof.
  induction docs as [| doc rest IH]; intros s1 s2 Hq Hc; simpl; [auto |].
  apply IH; unfold appendOrFlush; rewrite Hq, Hc;
    destruct (Z.of_nat (length (DocumentQueue s2)) <? Bulk)%Z; reflexivity.
Qed.

Lemma appendOrFlush_Log doc (s : CollectorService Span) :
  Log (appendOrFlush Bulk doc s) = Log s.
Proof.
  unfold appendOrFlush.
  destruct (Z.of_nat (length (DocumentQueue s)) <? Bulk)%Z; reflexivity.
Qed.

Lemma queueLoop_received events : forall s,
  loop events s =
    match cancelled events with
    | Some err => (logrus InfoDone (assign (received events) s), Some err)
    | None => (assign (received events) s, None)
    end.
Proof.
  induction events as [| [spans | err] rest IH]; intros s; simpl; try reflexivity.
  rewrite IH, assign_app. reflexivity.
Qed.

Lemma queueRoutine_count events :
  let s := fst (queueRoutine Span AssembleDocument Bulk events NewCollectorService) in
  assembling AssembleDocument (received events) =
  held s + length (DocumentQueueChan s).
Proof.
  unfold queueRoutine. rewrite queueLoop_received.
  pose proof (one_document_lost_per_flush AssembleDocument Bulk (received events)
                (logrus InfoStart NewCollectorService)) as H.
  simpl in H. destruct (cancelled events); simpl; unfold held in *; simpl in *; lia.
Qed.

Lemma held_full_batches (s : CollectorService Span) :
  Forall (fun batch => Z.of_nat (length batch) = Bulk) (DocumentQueueChan s) ->
  Z.of_nat (held s) =
  (Z.of_nat (length (DocumentQueue s)) + Bulk * Z.of_nat (length (DocumentQueueChan s)))%Z.
Proof.
  unfold held. generalize (DocumentQueueChan s) as sent.
  induction sent as [| batch rest IH]; intros Hall; simpl; [lia |].
  apply Forall_cons in Hall as [Hb Hrest]. specialize (IH Hrest). lia.
Qed.

(** X2.  Spans whose assembly fails leave the buffer and the batch channel
    alone: after [assignSpansToQueue] both are what the append-or-flush
    step gives on the documents that did assemble, in order, and the log
    has grown by one warning per failed span, in order. *)
Theorem failed_spans_only_log spans : forall s,
  let s' := assign spans s in
  let t := foldl step s (assembledDocuments AssembleDocument spans) in
  DocumentQueue s' = DocumentQueue t /\
  DocumentQueueChan s' = DocumentQueueChan t /\
  Log s' = Log s ++ assemblyWarnings AssembleDocument spans.
Proof.
  induction spans as [| span rest IH]; intros s; simpl.
  - rewrite app_nil_r. auto.
  - destruct (AssembleDocument span) as [doc | err]; simpl.
    + destruct (IH (appendOrFlush Bulk doc s)) as (Hq & Hc & Hl).
      rewrite Hq, Hc, Hl, appendOrFlush_Log. auto.
    + destruct (IH (logrus (WarnSpanEncode err span) s)) as (Hq & Hc & Hl).
      destruct (step_buffers (assembledDocuments AssembleDocument rest)
                  (logrus (WarnSpanEncode err span) s) s eq_refl eq_refl) as (Hq' & Hc').
      rewrite Hq, Hc, Hl, Hq', Hc'. simpl. rewrite <- app_assoc. auto.
Qed.

Lemma delivered_step doc (s : CollectorService Span) :
  delivered (appendOrFlush Bulk doc s) = delivered s ++ [doc] \/
  delivered (appendOrFlush Bulk doc s) = delivered s.
Proof.
  unfold appendOrFlush, delivered.
  destruct (Z.of_nat (length (DocumentQueue s)) <? Bulk)%Z; simpl.
  - left. now rewrite app_assoc.
  - right. now rewrite concat_app, app_nil_r; simpl; rewrite app_nil_r.
Qed.

(** X3.  Documents keep their arrival order across batch boundaries: what
    was delivered before stays a prefix, and the batches sent followed by
    the buffer are a subsequence of the earlier deliveries followed by the
    newly assembled documents (nothing is duplicated, reordered or
    invented; a document can only be missing). *)
Theorem delivered_in_arrival_order spans : forall s,
  delivered s `prefix_of` delivered (assign spans s) /\
  delivered (assign spans s) `sublist_of`
    delivered s ++ assembledDocuments AssembleDocument spans.
Proof.
  induction spans as [| span rest IH]; intros s; simpl.
  - rewrite app_nil_r. split; reflexivity.
  - destruct (AssembleDocument span) as [doc | err].
    + destruct (IH (appendOrFlush Bulk doc s)) as (Hp & Hs).
      destruct (delivered_step doc s) as [Hd | Hd]; rewrite Hd in Hp, Hs.
      * split.
        -- etransitivity; [apply prefix_app_r; reflexivity | exact Hp].
        -- now rewrite <- app_assoc in Hs.
      * split; [exact Hp |].
        etransitivity; [exact Hs |].
        apply sublist_app; [reflexivity | apply sublist_cons; reflexivity].
    + exact (IH (logrus (WarnSpanEncode err span) s)).
Qed.

(** X5.  While the buffer has room nothing is flushed or lost: if the
    buffered documents and the ones a span sequence assembles to fit
    within the threshold, they are all appended in order and no batch is
    sent. *)
Theorem room_in_buffer_keeps_all spans : forall s,
  (Z.of_nat (length (DocumentQueue s) + assembling AssembleDocument spans) <= Bulk)%Z ->
  DocumentQueue (assign spans s) =
    DocumentQueue s ++ assembledDocuments AssembleDocument spans /\
  DocumentQueueChan (assign spans s) = DocumentQueueChan s.
Proof.
  induction spans as [| span rest IH]; intros s Hroom; simpl in *.
  - rewrite app_nil_r. auto.
  - destruct (AssembleDocument span) as [doc | err].
    + assert (Happ : appendOrFlush Bulk doc s =
                mkService Span (DocumentQueue s ++ [doc]) (DocumentQueueChan s) (Log s)).
      { unfold appendOrFlush.
        destruct (Z.ltb_spec (Z.of_nat (length (DocumentQueue s))) Bulk); [reflexivity | lia]. }
      destruct (IH (appendOrFlush Bulk doc s)) as (Hq & Hc).
      { rewrite Happ. simpl. rewrite length_app. simpl. lia. }
      rewrite Hq, Hc, Happ. simpl. rewrite <- app_assoc. auto.
    + apply (IH (logrus (WarnSpanEncode err span) s)). simpl. lia.
Qed.

(** X6.  With a threshold of zero or less nothing is ever buffered: from
    an empty buffer every assembled document is dropped and sends one
    empty batch. *)
Theorem nonpositive_threshold_drops_all spans : forall s,
  (Bulk <= 0)%Z ->
  DocumentQueue s = [] ->
  DocumentQueue (assign spans s) = [] /\
  DocumentQueueChan (assign spans s) =
    DocumentQueueChan s ++ replicate (assembling AssembleDocument spans) [].
Proof.
  induction spans as [| span rest IH]; intros s HB Hempty; simpl.
  - rewrite app_nil_r. auto.
  - destruct (AssembleDocument span) as [doc | err].
    + assert (Hflush : appendOrFlush Bulk doc s =
                mkService Span [] (DocumentQueueChan s ++ [[]]) (Log s)).
      { unfold appendOrFlush. rewrite Hempty.
        destruct (Z.ltb_spec (Z.of_nat (length (@nil Document))) Bulk) as [Hlt |];
          [simpl in Hlt; lia | reflexivity]. }
      destruct (IH (appendOrFlush Bulk doc s) HB) as (Hq & Hc);
        [now rewrite Hflush |].
      rewrite Hq, Hc, Hflush. simpl. rewrite <- app_assoc. auto.
    + apply (IH (logrus (WarnSpanEncode err span) s) HB). exact Hempty.
Qed.

End accumulating.

(** Threshold 5 leaves room for D1, D2, D3. *)
Lemma room_in_buffer_keeps_all_witness :
  (Z.of_nat (length (@DocumentQueue Document NewCollectorService)
             + assembling assembled [D1; D2; D3]) <= 5)%Z /\
  DocumentQueue (assignSpansToQueue Document assembled 5 [D1; D2; D3] NewCollectorService)
    = [] ++ assembledDocuments assembled [D1; D2; D3] /\
  DocumentQueueChan (assignSpansToQueue Document assembled 5 [D1; D2; D3] NewCollectorService)
    = [].
Proof.
  split; [vm_compute; discriminate |].
  apply (room_in_buffer_keeps_all assembled 5 [D1; D2; D3] NewCollectorService).
  vm_compute. discriminate.
Defined.

(** Threshold 0: two documents, two empty batches. *)
Lemma nonpositive_threshold_drops_all_witness :
  (0 <= 0)%Z /\
  DocumentQueue (assignSpansToQueue Document assembled 0 [D1; D2] NewCollectorService) = [] /\
  DocumentQueueChan (assignSpansToQueue Document assembled 0 [D1; D2] NewCollectorService)
    = [] ++ replicate (assembling assembled [D1; D2]) [].
Proof.
  split; [lia |].
  apply (nonpositive_threshold_drops_all assembled 0 [D1; D2] NewCollectorService);
    [lia | reflexivity].
Defined.

End Accumulator.

(** ** Queue consumer: the receive loop of [kafkaRoutine]

    The loop starts once [consumergroup.JoinConsumerGroup] has succeeded
    (a join error ends the process through [logrus.Fatal]). *)
Module Consumer.

(** [sarama.ConsumerMessage]. *)
Record ConsumerMessage := mkMessage {
  Topic : string;
  Partition : Z;
  Offset : Z;
  Value : string
}.

Section kafkaRoutine.
(** [*[]trace.Span] as [trace.ToSpans] returns it, whatever it holds
    when decoding fails. *)
Variable Spans : Type.
Variable GetMessageBody : string -> string * option error.
Variable ToSpans : string -> Spans * option error.

(** What the routine does, in program order.  [SendSpans] stands for a
    completed [SpansProcessingChan <- spans]. *)
Inductive Action :=
| WarnDecode (err : error) (traceLog : string)
| SendSpans (spans : Spans)
| CommitUpto (message : ConsumerMessage)
| InfoDone.

Inductive Select :=
| GotMessage (message : ConsumerMessage)
| CtxDone (err : error).

Inductive Status :=
| Parked
| BlockedOnSend (spans : Spans)
| Returned (err : error).

(** Lines 97-105: the error of [GetMessageBody] is ignored, an empty body
    falls back to the raw value. *)
Definition decode (message : ConsumerMessage) : string * (Spans * option error) :=
  let traceLog := fst (GetMessageBody (Value message)) in
  let traceLog := if decide (traceLog = "") then Value message else traceLog in
  (traceLog, ToSpans traceLog).

Definition spans_of (message : ConsumerMessage) : Spans := fst (snd (decode message)).

Definition warn_of (message : ConsumerMessage) : list Action :=
  match snd (snd (decode message)) with
  | Some err => [WarnDecode err (fst (decode message))]
  | None => []
  end.

(** [receivers] is the number of receives the other end of the unbuffered
    [SpansProcessingChan] still performs; with none left the send blocks
    for good. *)
Fixpoint kafkaRoutine (events : list Select) (receivers : nat) : list Action * Status :=
  match events with
  | [] => ([], Parked)
  | GotMessage message :: rest =>
      match receivers with
      | O => (warn_of message, BlockedOnSend (spans_of message))
      | S n =>
          let '(actions, status) := kafkaRoutine rest n in
          (warn_of message ++
             SendSpans (spans_of message) :: CommitUpto message :: actions,
           status)
      end
  | CtxDone err :: _ => ([InfoDone], Returned err)
  end.

(** In a list of actions every commit directly follows the send of its
    message's spans and every send is directly followed by that commit. *)
Definition paired (actions : list Action) : Prop :=
  (forall i message, actions !! i = Some (CommitUpto message) ->
     exists j, i = S j /\ actions !! j = Some (SendSpans (spans_of message))) /\
  (forall i spans, actions !! i = Some (SendSpans spans) ->
     exists message, spans = spans_of message /\
                     actions !! S i = Some (CommitUpto message)).

End kafkaRoutine.

Arguments WarnDecode {Spans} err traceLog.
Arguments SendSpans {Spans} spans.
Arguments CommitUpto {Spans} message.
Arguments InfoDone {Spans}.
Arguments Parked {Spans}.
Arguments BlockedOnSend {Spans} spans.
Arguments Returned {Spans} err.

(** The messages the loop is offered before the first [ctx.Done], and the
    error of that [ctx.Done] if there is one. *)
Fixpoint arrived (events : list Select) : list ConsumerMessage :=
  match events with
  | GotMessage message :: rest => message :: arrived rest
  | _ => []
  end.

Fixpoint cancelled (events : list Select) : option error :=
  match events with
  | [] => None
  | GotMessage _ :: rest => cancelled rest
  | CtxDone err :: _ => Some err
  end.

(** The messages committed and the spans sent by a list of actions, in
    order. *)
Definition commits {Spans} (actions : list (Action Spans)) : list ConsumerMessage :=
  omap (fun a => match a with CommitUpto message => Some message | _ => None end) actions.

Definition sends {Spans} (actions : list (Action Spans)) : list Spans :=
  omap (fun a => match a with SendSpans spans => Some spans | _ => None end) actions.

(** A decoder that rejects every payload and returns a nil pointer. *)
Definition rejecting (traceLog : string) : option (list nat) * option error :=
  (None, Some "invalid character").
Definition raw_body (value : string) : string * option error := ("", None).
Definition M0 : ConsumerMessage := mkMessage "traces" 0 41 "not json".

Section ordering.
Context {Spans : Type}.
Variable GetMessageBody : string -> string * option error.
Variable ToSpans : string -> Spans * option error.

Local Abbreviation paired := (paired Spans GetMessageBody ToSpans).
Local Abbreviation spans_of := (spans_of Spans GetMessageBody ToSpans).
Local Abbreviation warn_of := (warn_of Spans GetMessageBody ToSpans).

Lemma paired_nil : paired [].
Proof. split; intros i x H; rewrite lookup_nil in H; discriminate. Qed.

Lemma paired_info : paired [InfoDone].
Proof.
  split; intros [| i] x H; simpl in H; try discriminate;
    rewrite lookup_nil in H; discriminate.
Qed.

Lemma paired_warn err traceLog actions :
  paired actions -> paired (WarnDecode err traceLog :: actions).
Proof.
  intros [Hc Hs]. split.
  - intros [| i] message H; simpl in H; [discriminate |].
    destruct (Hc i message H) as (j & -> & Hj). exists (S j). auto.
  - intros [| i] spans H; simpl in H; [discriminate |].
    destruct (Hs i spans H) as (message & -> & Hm). exists message. auto.
Qed.

Lemma paired_send_commit message actions :
  paired actions ->
  paired (SendSpans (spans_of message) :: CommitUpto message :: actions).
Proof.
  intros [Hc Hs]. split.
  - intros [| [| i]] m H; simpl in H; [discriminate | |].
    + injection H as <-. exists 0. auto.
    + destruct (Hc i m H) as (j & -> & Hj). exists (S (S j)). auto.
  - intros [| [| i]] spans H; simpl in H; [| discriminate |].
    + injection H as <-. exists message. auto.
    + destruct (Hs i spans H) as (m & -> & Hm). exists m. auto.
Qed.

Lemma paired_warn_of message actions :
  paired actions -> paired (warn_of message ++ actions).
Proof.
  intros H. unfold Consumer.warn_of.
  destruct (snd (snd _)); simpl; [now apply paired_warn | assumption].
Qed.

Lemma paired_kafkaRoutine events :
  forall receivers,
    paired (fst (kafkaRoutine Spans GetMessageBody ToSpans events receivers)).
Proof.
  induction events as [| ev rest IH]; intros receivers; simpl; [apply paired_nil |].
  destruct ev as [message | err]; simpl; [| apply paired_info].
  destruct receivers as [| n]; simpl.
  - rewrite <- (app_nil_r (warn_of message)). apply paired_warn_of, paired_nil.
  - specialize (IH n).
    destruct (kafkaRoutine Spans GetMessageBody ToSpans rest n) as [actions status].
    simpl in *. now apply paired_warn_of, paired_send_commit.
Qed.
End ordering.

(** Whatever the decoder, a message it rejects is still sent and committed
    when a receiver is there. *)
Lemma decode_error_still_sends {Spans} (GetMessageBody : string -> string * option error)
    (ToSpans : string -> Spans * option error) message err rest n :
  snd (snd (decode Spans GetMessageBody ToSpans message)) = Some err ->
  exists traceLog actions,
    fst (kafkaRoutine Spans GetMessageBody ToSpans (GotMessage message :: rest) (S n)) =
      WarnDecode err traceLog ::
      SendSpans (spans_of Spans GetMessageBody ToSpans message) ::
      CommitUpto message :: actions.
Proof.
  intros Herr. simpl.
  destruct (kafkaRoutine Spans GetMessageBody ToSpans rest n) as [actions status].
  unfold warn_of. rewrite Herr. simpl. eauto.
Qed.

(** C3 (evaluation at the failing input).  A message whose payload
    [ToSpans] rejects is warned about, and then the returned spans are
    still sent on [SpansProcessingChan] and the offset is committed: the
    error branch has no [continue]. *)
Lemma undecodable_message_is_sent :
  kafkaRoutine (option (list nat)) raw_body rejecting [GotMessage M0] 1 =
    ([WarnDecode "invalid character" "not json"; SendSpans None; CommitUpto M0], Parked).
Proof. reflexivity. Qed.

(** *** Further properties of the consumer loop *)

Section consuming.
Context {Spans : Type}.
Variable GetMessageBody : string -> string * option error.
Variable ToSpans : string -> Spans * option error.

Local Abbreviation spans_of := (spans_of Spans GetMessageBody ToSpans).
Local Abbreviation warn_of := (warn_of Spans GetMessageBody ToSpans).
Local Abbreviation routine := (kafkaRoutine Spans GetMessageBody ToSpans).

Lemma commits_app (l1 l2 : list (Action Spans)) :
  commits (l1 ++ l2) = commits l1 ++ commits l2.
Proof. apply omap_app. Qed.

Lemma sends_app (l1 l2 : list (Action Spans)) :
  sends (l1 ++ l2) = sends l1 ++ sends l2.
Proof. apply omap_app. Qed.

Lemma warn_of_silent message :
  commits (warn_of message) = [] /\ sends (warn_of message) = [].
Proof. unfold Consumer.warn_of. destruct (snd (snd _)); split; reflexivity. Qed.

(** X12.  Offsets are committed in arrival order and without gaps: the
    messages committed are exactly the first [receivers] messages offered
    before the first [ctx.Done] (all of them if fewer arrive), and the
    spans sent are the decoder's results for those same messages, in the
    same order. *)
Theorem commits_follow_arrival_order events : forall receivers,
  let actions := fst (routine events receivers) in
  commits actions = take receivers (arrived events) /\
  sends actions = spans_of <$> take receivers (arrived events).
Proof.
  induction events as [| [message | err] rest IH]; intros receivers; simpl.
  - rewrite take_nil. auto.
  - destruct (warn_of_silent message) as (Hc & Hs).
    destruct receivers as [| n]; simpl; [auto |].
    specialize (IH n). destruct (routine rest n) as [actions status]. simpl in *.
    destruct IH as (IHc & IHs).
    rewrite commits_app, sends_app, Hc, Hs.
    change (commits (SendSpans (spans_of message) :: CommitUpto message :: actions))
      with (message :: commits actions).
    change (sends (SendSpans (spans_of message) :: CommitUpto message :: actions))
      with (spans_of message :: sends actions).
    simpl. now rewrite IHc, IHs.
  - rewrite take_nil. auto.
Qed.

(** X13.  How the loop ends is decided by what comes first: if more than
    [receivers] messages arrive before the first [ctx.Done], the routine is
    stuck in the send of the first message nobody receives and never gets
    to see the cancellation; otherwise it returns the context's error at
    the first [ctx.Done], or stays parked in [select] if there is none. *)
Theorem blocked_send_hides_cancellation events : forall receivers,
  snd (routine events receivers) =
    match arrived events !! receivers with
    | Some message => BlockedOnSend (spans_of message)
    | None =>
        match cancelled events with
        | Some err => Returned err
        | None => Parked
        end
    end.
Proof.
  induction events as [| [message | err] rest IH]; intros receivers; simpl.
  - now destruct receivers.
  - destruct receivers as [| n]; simpl; [reflexivity |].
    specialize (IH n). destruct (routine rest n) as [actions status]. exact IH.
  - now destruct receivers.
Qed.

Lemma kafkaRoutine_trace events : forall receivers,
  fst (routine events receivers) =
    flat_map (fun message =>
                warn_of message ++ [SendSpans (spans_of message); CommitUpto message])
      (take receivers (arrived events)) ++
    match arrived events !! receivers with
    | Some message => warn_of message
    | None => match cancelled events with Some _ => [InfoDone] | None => [] end
    end.
Proof.
  induction events as [| [message | err] rest IH]; intros receivers; simpl.
  - now destruct receivers.
  - destruct receivers as [| n]; simpl; [reflexivity |].
    specialize (IH n). destruct (routine rest n) as [actions status]. simpl in *.
    rewrite IH, <- !app_assoc. reflexivity.
  - now destruct receivers.
Qed.

Lemma commits_take events : forall receivers,
  commits (fst (routine events receivers)) = take receivers (arrived events).
Proof.
  induction events as [| [message | err] rest IH]; intros receivers; simpl.
  - now rewrite take_nil.
  - destruct (warn_of_silent message) as (Hc & _).
    destruct receivers as [| n]; simpl; [exact Hc |].
    specialize (IH n). destruct (routine rest n) as [actions status]. simpl in *.
    rewrite commits_app, Hc.
    change (commits (SendSpans (spans_of message) :: CommitUpto message :: actions))
      with (message :: commits actions).
    simpl. now rewrite IH.
  - now rewrite take_nil.
Qed.

Lemma elem_of_commits (actions : list (Action Spans)) message :
  CommitUpto message ∈ actions <-> message ∈ commits actions.
Proof.
  unfold commits. rewrite list_elem_of_omap. split.
  - intros H. exists (CommitUpto message). auto.
  - intros (a & Ha & Hm). destruct a; try discriminate. now injection Hm as <-.
Qed.

(** C5 (amended).  Every run of the consumer loop, whatever arrives and
    however many sends the receiver accepts, is this sequence of actions:
    for each of the messages whose send completed (the first [receivers]
    that arrived before the first [ctx.Done]), in arrival order, the decode
    warning if any, the send of that message's spans and then at once the
    commit of that message; after them only the warning of the message
    whose send blocks, or the exit line.  So a message is committed exactly
    when its send completed, each commit is the action directly after the
    send of its own message's spans, each completed send is directly
    followed by that commit, and no commit precedes its send. *)
Theorem commit_iff_send_completed events receivers :
  let actions := fst (routine events receivers) in
  let accepted := take receivers (arrived events) in
  actions =
    flat_map (fun message =>
                warn_of message ++ [SendSpans (spans_of message); CommitUpto message])
      accepted ++
    match arrived events !! receivers with
    | Some message => warn_of message
    | None => match cancelled events with Some _ => [InfoDone] | None => [] end
    end /\
  (forall message, CommitUpto message ∈ actions <-> message ∈ accepted) /\
  (forall i message, actions !! i = Some (CommitUpto message) ->
     exists j, i = S j /\ actions !! j = Some (SendSpans (spans_of message))) /\
  (forall i spans, actions !! i = Some (SendSpans spans) ->
     exists message, spans = spans_of message /\
       actions !! S i = Some (CommitUpto message)).
Proof.
  intros actions accepted. subst actions accepted.
  split; [apply kafkaRoutine_trace |].
  split; [intros message; now rewrite elem_of_commits, commits_take |].
  exact (paired_kafkaRoutine GetMessageBody ToSpans events receivers).
Qed.

End consuming.

End Consumer.

(** ** Bulk persister: [documentRoutine] and its closure [bulkSaveDocument] *)
Module Persister.

(** [elastic.NewBulkIndexRequest().Index(_).Type(_).Doc(_)]. *)
Record BulkIndexRequest := mkIndexRequest {
  ReqIndex : string;
  ReqType : string;
  ReqDoc : string
}.

Definition NewBulkIndexRequest (document : Document) : BulkIndexRequest :=
  mkIndexRequest (IndexName document) (TypeName document) (Payload document).

(** The fields of [elastic.BulkResponseItem] the persister reads. *)
Record BulkResponseItem := mkItemResult {
  Index : string;
  Status : Z;
  Error : option string
}.

(** go-cache's [Item]: the stored object and its expiry in Unix
    nanoseconds (not positive: never expires). *)
Record Item := mkItem {
  Object : bool;
  Expiration : Z
}.

(** [gocache.New(60*time.Second, _)]: the default expiration. *)
Definition defaultExpiration : Z := 60 * 1000000000.

Inductive StoreCall :=
| IndexExistsCall (index : string)
| CreateIndexCall (index body : string).

Inductive LogEntry :=
| InfoStart
| WarnIndexExists (err : error) (index : string)
| WarnIndexCreate (err : error) (index : string)
| WarnNotAcknowledged (index : string)
| WarnBulkSave (err : error)
| WarnBulkResponse
| WarnItemState (status : Z) (index : string) (err : option string)
| InfoDone.

(** How the provisioning block of the loop body ends for one document:
    the first three fall through to [bulkRequest.Add], the last three are
    the three [continue] statements. *)
Inductive Outcome :=
| CacheHit
| VerifiedExisting
| Created
| SkipExistsError
| SkipCreateError
| SkipNotAcknowledged.

Definition passed (outcome : Outcome) : bool :=
  match outcome with
  | CacheHit | VerifiedExisting | Created => true
  | SkipExistsError | SkipCreateError | SkipNotAcknowledged => false
  end.

Definition cacheKey (document : Document) : string :=
  IndexName document +:+ TypeName document.

Section documentRoutine.
(** The Elasticsearch cluster as the client sees it, and the three
    requests the persister issues; each may change the cluster. *)
Variable World : Type.
Variable IndexExists : string -> World -> World * (bool + error).
Variable CreateIndex : string -> string -> World -> World * (bool + error).
Variable BulkResponse : Type.
Variable BulkDo : list BulkIndexRequest -> World -> World * (option BulkResponse * option error).
Variable Indexed : BulkResponse -> list BulkResponseItem.
(** [storage.Mappings]. *)
Variable Mappings : string -> string.
(** [clock n] is the n-th reading of [time.Now().UnixNano()] taken by the
    cache; nothing is assumed about it. *)
Variable clock : nat -> Z.

(** The persister's state.  [Calls] records the provisioning requests
    issued, each tagged with the cache key of the document it was issued
    for; [Bulks] records the bulk requests executed. *)
Record State := mkState {
  Cache : gmap string Item;
  Ticks : nat;
  Store : World;
  Calls : list (string * StoreCall);
  Bulks : list (list BulkIndexRequest);
  Log : list LogEntry
}.

Definition with_cache (c : gmap string Item) (st : State) : State :=
  mkState c (Ticks st) (Store st) (Calls st) (Bulks st) (Log st).
Definition tick (st : State) : State :=
  mkState (Cache st) (S (Ticks st)) (Store st) (Calls st) (Bulks st) (Log st).
Definition with_store (w : World) (st : State) : State :=
  mkState (Cache st) (Ticks st) w (Calls st) (Bulks st) (Log st).
Definition called (key : string) (c : StoreCall) (st : State) : State :=
  mkState (Cache st) (Ticks st) (Store st) (Calls st ++ [(key, c)]) (Bulks st) (Log st).
Definition executed (req : list BulkIndexRequest) (st : State) : State :=
  mkState (Cache st) (Ticks st) (Store st) (Calls st) (Bulks st ++ [req]) (Log st).
Definition logrus (e : LogEntry) (st : State) : State :=
  mkState (Cache st) (Ticks st) (Store st) (Calls st) (Bulks st) (Log st ++ [e]).

(** go-cache's [Get]: the clock is read only for an entry that can
    expire.  The janitor goroutine is not represented: it deletes only
    entries whose expiry lies before its own clock reading. *)
Definition CacheGet (k : string) (st : State) : State * bool :=
  match Cache st !! k with
  | None => (st, false)
  | Some item =>
      if (0 <? Expiration item)%Z then
        if (Expiration item <? clock (Ticks st))%Z
        then (tick st, false)
        else (tick st, true)
      else (st, true)
  end.

(** go-cache's [Set(k, true, DefaultExpiration)]; the sum is taken in [Z]
    (an [int64] does not overflow here before the year 2262). *)
Definition CacheSet (k : string) (st : State) : State :=
  tick (with_cache
          (<[k := mkItem true (clock (Ticks st) + defaultExpiration)]> (Cache st)) st).

(** Lines 170-199: the provisioning of a document whose key the cache
    does not hold. *)
Definition provisionIndex (document : Document) (st : State) : State * Outcome :=
  let key := cacheKey document in
  let '(w, r) := IndexExists (IndexName document) (Store st) in
  let st := called key (IndexExistsCall (IndexName document)) (with_store w st) in
  match r with
  | inr err => (logrus (WarnIndexExists err (IndexName document)) st, SkipExistsError)
  | inl true => (CacheSet key st, VerifiedExisting)
  | inl false =>
      let body := Mappings (IndexBaseName document) in
      let '(w, r) := CreateIndex (IndexName document) body (Store st) in
      let st := called key (CreateIndexCall (IndexName document) body) (with_store w st) in
      match r with
      | inr err => (logrus (WarnIndexCreate err (IndexName document)) st, SkipCreateError)
      | inl false => (logrus (WarnNotAcknowledged (IndexName document)) st, SkipNotAcknowledged)
      | inl true => (CacheSet key st, Created)
      end
  end.

(** Lines 167-200: the cache lookup and the provisioning it guards. *)
Definition provision (document : Document) (st : State) : State * Outcome :=
  let '(st, found) := CacheGet (cacheKey document) st in
  if found then (st, CacheHit) else provisionIndex document st.

(** Lines 166-208: the loop over the batch. *)
Fixpoint addDocuments (documents : list Document) (bulkRequest : list BulkIndexRequest)
    (st : State) : list BulkIndexRequest * State :=
  match documents with
  | [] => (bulkRequest, st)
  | document :: rest =>
      let '(st, outcome) := provision document st in
      if passed outcome
      then addDocuments rest (bulkRequest ++ [NewBulkIndexRequest document]) st
      else addDocuments rest bulkRequest st
  end.

(** Lines 226-238: the inspection of [bulkResponse.Indexed()]. *)
Definition inspectItem (st : State) (value : BulkResponseItem) : State :=
  if decide (Status value <> 201%Z)
  then logrus (WarnItemState (Status value) (Index value) (Error value)) st
  else st.

Definition inspect (indexed : list BulkResponseItem) (st : State) : State :=
  if (0 <? Z.of_nat (length indexed))%Z then foldl inspectItem st indexed else st.

(** Lines 210-238: the bulk request is executed and its response read. *)
Definition submitBulk (bulkRequest : list BulkIndexRequest) (st : State) : State :=
  let '(w, (bulkResponse, err)) := BulkDo bulkRequest (Store st) in
  let st := executed bulkRequest (with_store w st) in
  match err with
  | Some e => logrus (WarnBulkSave e) st
  | None =>
      match bulkResponse with
      | None => logrus WarnBulkResponse st
      | Some response => inspect (Indexed response) st
      end
  end.

Definition bulkSaveDocument (documents : list Document) (st : State) : State :=
  let '(bulkRequest, st) := addDocuments documents [] st in
  submitBulk bulkRequest st.

Inductive Select :=
| RecvQueue (queue : list Document)
| CtxDone (err : error).

Fixpoint documentLoop (events : list Select) (st : State) : State * option error :=
  match events with
  | [] => (st, None)
  | RecvQueue queue :: rest => documentLoop rest (bulkSaveDocument queue st)
  | CtxDone err :: _ => (logrus InfoDone st, Some err)
  end.

Definition documentRoutine (events : list Select) (st : State) : State * option error :=
  documentLoop events (logrus InfoStart st).

(** The outcome of each document of a batch, in order. *)
Fixpoint outcomes (documents : list Document) (st : State) : list Outcome :=
  match documents with
  | [] => []
  | document :: rest =>
      let '(st, outcome) := provision document st in
      outcome :: outcomes rest st
  end.

(** The index operations of the documents whose outcome passed. *)
Fixpoint passed_ops (documents : list Document) (os : list Outcome) : list BulkIndexRequest :=
  match documents, os with
  | document :: rest, outcome :: os' =>
      if passed outcome
      then NewBulkIndexRequest document :: passed_ops rest os'
      else passed_ops rest os'
  | _, _ => []
  end.

(** The provisioning requests recorded for one cache key. *)
Definition calls_for (key : string) (st : State) : list StoreCall :=
  snd <$> filter (fun c => fst c = key) (Calls st).

End documentRoutine.

Arguments Cache {World} _.
Arguments Ticks {World} _.
Arguments Store {World} _.
Arguments Calls {World} _.
Arguments Bulks {World} _.
Arguments Log {World} _.
Arguments mkState {World} _ _ _ _ _ _.
Arguments logrus {World} e st.
Arguments inspectItem {World} st value.
Arguments inspect {World} indexed st.
Arguments calls_for {World} key st.

(** A cache entry cannot be seen as expired by a clock reading numbered
    from [a] up to, not including, [b]. *)
Definition unexpired_between (clock : nat -> Z) (item : Item) (a b : nat) : Prop :=
  forall n, a <= n < b -> (clock n <= Expiration item)%Z.

(** The batches the loop receives before the first [ctx.Done]. *)
Fixpoint batches (events : list Select) : list (list Document) :=
  match events with
  | RecvQueue queue :: rest => queue :: batches rest
  | _ => []
  end.

(** Step 1 of the persister as the specification words it (section 4.4),
    for a document that is not served from the cache, in terms of what the
    store answers in world [w]: [store_admits] holds when the existence
    query succeeds and the index exists, or is missing and its creation
    succeeds and is acknowledged; [provisioning_fails] spells out the three
    failures; [store_requests] lists the requests this takes. *)
Definition store_admits {World : Type}
    (IndexExists : string -> World -> World * (bool + error))
    (CreateIndex : string -> string -> World -> World * (bool + error))
    (Mappings : string -> string) (document : Document) (w : World) : bool :=
  match IndexExists (IndexName document) w with
  | (_, inr _) => false
  | (_, inl true) => true
  | (w1, inl false) =>
      match CreateIndex (IndexName document) (Mappings (IndexBaseName document)) w1 with
      | (_, inl true) => true
      | (_, inl false) => false
      | (_, inr _) => false
      end
  end.

Definition provisioning_fails {World : Type}
    (IndexExists : string -> World -> World * (bool + error))
    (CreateIndex : string -> string -> World -> World * (bool + error))
    (Mappings : string -> string) (document : Document) (w : World) : Prop :=
  (exists err, snd (IndexExists (IndexName document) w) = inr err) \/
  (snd (IndexExists (IndexName document) w) = inl false /\
   let created :=
     snd (CreateIndex (IndexName document) (Mappings (IndexBaseName document))
            (fst (IndexExists (IndexName document) w))) in
   ((exists err, created = inr err) \/ created = inl false)).

Definition store_requests {World : Type}
    (IndexExists : string -> World -> World * (bool + error))
    (Mappings : string -> string) (document : Document) (w : World) : list StoreCall :=
  match snd (IndexExists (IndexName document) w) with
  | inl false =>
      [IndexExistsCall (IndexName document);
       CreateIndexCall (IndexName document) (Mappings (IndexBaseName document))]
  | _ => [IndexExistsCall (IndexName document)]
  end.

(** A document passes when it is served from the cache or the store
    admits it, and a batch's operations are those of its documents that
    pass, each judged in the state the loop has reached. *)
Definition provisioned {World : Type}
    (IndexExists : string -> World -> World * (bool + error))
    (CreateIndex : string -> string -> World -> World * (bool + error))
    (Mappings : string -> string) (clock : nat -> Z)
    (document : Document) (st : State World) : bool :=
  snd (CacheGet World clock (cacheKey document) st) ||
  store_admits IndexExists CreateIndex Mappings document (Store st).

Fixpoint provisioned_ops {World : Type}
    (IndexExists : string -> World -> World * (bool + error))
    (CreateIndex : string -> string -> World -> World * (bool + error))
    (Mappings : string -> string) (clock : nat -> Z)
    (documents : list Document) (st : State World) : list BulkIndexRequest :=
  match documents with
  | [] => []
  | document :: rest =>
      (if provisioned IndexExists CreateIndex Mappings clock document st
       then [NewBulkIndexRequest document] else []) ++
      provisioned_ops IndexExists CreateIndex Mappings clock rest
        (fst (provision World IndexExists CreateIndex Mappings clock document st))
  end.

(** The log line for a bulk response item. *)
Definition itemWarning (value : BulkResponseItem) : LogEntry :=
  WarnItemState (Status value) (Index value) (Error value).

(** Concrete collaborators for the runs below: a cluster without state, in
    which the index is missing and cannot be created, or is present; a
    clock that stands still, and one that advances by one nanosecond per
    reading. *)
Definition E1 : Document := mkDocument "traces-2024" "traces" "span" "p1".
Definition E2 : Document := mkDocument "traces-2024" "traces" "span" "p2".
Definition index_missing (index : string) (w : unit) : unit * (bool + error) :=
  (w, inl false).
Definition index_present (index : string) (w : unit) : unit * (bool + error) :=
  (w, inl true).
Definition create_fails (index body : string) (w : unit) : unit * (bool + error) :=
  (w, inr "cluster unavailable").
Definition plain_mappings (base : string) : string := "{}".
Definition frozen_clock (n : nat) : Z := 0.
Definition stepping_clock (n : nat) : Z := Z.of_nat n.
Definition bulk_created (req : list BulkIndexRequest) (w : unit)
  : unit * (option (list BulkResponseItem) * option error) :=
  (w, (Some ((fun r => mkItemResult (ReqIndex r) 201 None) <$> req), None)).
Definition items_of (response : list BulkResponseItem) : list BulkResponseItem := response.
Definition cold_start : State unit := mkState ∅ 0 tt [] [] [].
Definition warm : State unit :=
  fst (provision unit index_present create_fails plain_mappings stepping_clock E1 cold_start).

Section properties.
Context {World BulkResponse : Type}.
Variable IndexExists : string -> World -> World * (bool + error).
Variable CreateIndex : string -> string -> World -> World * (bool + error).
Variable BulkDo : list BulkIndexRequest -> World -> World * (option BulkResponse * option error).
Variable Indexed : BulkResponse -> list BulkResponseItem.
Variable Mappings : string -> string.
Variable clock : nat -> Z.

Local Abbreviation CacheGet := (CacheGet World clock).
Local Abbreviation CacheSet := (CacheSet World clock).
Local Abbreviation provisionIndex := (provisionIndex World IndexExists CreateIndex Mappings clock).
Local Abbreviation provision := (provision World IndexExists CreateIndex Mappings clock).
Local Abbreviation addDocuments := (addDocuments World IndexExists CreateIndex Mappings clock).
Local Abbreviation outcomes := (outcomes World IndexExists CreateIndex Mappings clock).
Local Abbreviation submitBulk := (submitBulk World BulkResponse BulkDo Indexed).
Local Abbreviation bulkSaveDocument :=
  (bulkSaveDocument World IndexExists CreateIndex BulkResponse BulkDo Indexed Mappings clock).
Local Abbreviation documentLoop :=
  (documentLoop World IndexExists CreateIndex BulkResponse BulkDo Indexed Mappings clock).

(** *** Response inspection *)

Lemma foldl_inspectItem indexed : forall st : State World,
  let st' := foldl inspectItem st indexed in
  Log st' = Log st ++ (itemWarning <$> filter (fun value => Status value <> 201%Z) indexed) /\
  Cache st' = Cache st /\ Ticks st' = Ticks st /\ Store st' = Store st /\
  Calls st' = Calls st /\ Bulks st' = Bulks st.
Proof.
  induction indexed as [| value rest IH]; intros st; simpl.
  - rewrite app_nil_r. repeat split.
  - destruct (IH (inspectItem st value)) as (HL & HC & HT & HS & HK & HB).
    rewrite HL, HC, HT, HS, HK, HB. unfold inspectItem.
    destruct (decide (Status value <> 201%Z)) as [Hne | Heq].
    + rewrite filter_cons_True by assumption. simpl.
      rewrite <- app_assoc. repeat split.
    + rewrite filter_cons_False by assumption. repeat split.
Qed.

Lemma inspect_foldl indexed (st : State World) :
  inspect indexed st = foldl inspectItem st indexed.
Proof. destruct indexed; reflexivity. Qed.

(** *** The batch loop and the bulk request *)

Lemma addDocuments_ops documents : forall req st,
  fst (addDocuments documents req st) = req ++ passed_ops documents (outcomes documents st).
Proof.
  induction documents as [| document rest IH]; intros req st; simpl.
  - now rewrite app_nil_r.
  - destruct (provision document st) as [st' outcome].
    destruct (passed outcome); rewrite IH; [| reflexivity].
    now rewrite <- app_assoc.
Qed.

Lemma outcomes_length documents : forall st,
  length (outcomes documents st) = length documents.
Proof.
  induction documents as [| document rest IH]; intros st; simpl; [reflexivity |].
  destruct (provision document st) as [st' outcome]. simpl. now rewrite IH.
Qed.

Lemma passed_ops_sublist documents : forall os,
  passed_ops documents os `sublist_of` (NewBulkIndexRequest <$> documents).
Proof.
  induction documents as [| document rest IH]; intros os; simpl.
  - constructor.
  - destruct os as [| outcome os']; [apply sublist_nil_l |].
    destruct (passed outcome).
    + apply sublist_skip, IH.
    + apply sublist_cons, IH.
Qed.

Lemma passed_ops_length documents : forall os,
  length os = length documents ->
  length (passed_ops documents os) = length (filter (fun o => passed o = true) os).
Proof.
  induction documents as [| document rest IH]; intros [| outcome os'] Hlen;
    simpl in *; try discriminate; [reflexivity |].
  injection Hlen as Hlen.
  destruct (passed outcome) eqn:Hp.
  - rewrite filter_cons_True by assumption. simpl. now rewrite IH.
  - rewrite filter_cons_False by (rewrite Hp; discriminate). now apply IH.
Qed.

(** *** What provisioning leaves untouched *)

Lemma CacheGet_frame k (st : State World) :
  let st' := fst (CacheGet k st) in
  Cache st' = Cache st /\ Calls st' = Calls st /\ Bulks st' = Bulks st /\
  Ticks st <= Ticks st'.
Proof.
  unfold Persister.CacheGet.
  destruct (Cache st !! k) as [item |]; [| simpl; repeat split; lia].
  destruct (0 <? Expiration item)%Z; [| simpl; repeat split; lia].
  destruct (Expiration item <? clock (Ticks st))%Z; simpl; repeat split; lia.
Qed.

Lemma CacheGet_live k item (st : State World) :
  Cache st !! k = Some item ->
  unexpired_between clock item (Ticks st) (Ticks (fst (CacheGet k st))) ->
  snd (CacheGet k st) = true.
Proof.
  unfold Persister.CacheGet. intros -> Hwin.
  destruct (0 <? Expiration item)%Z; [| reflexivity].
  destruct (Z.ltb_spec (Expiration item) (clock (Ticks st))) as [Hexp |]; [| reflexivity].
  simpl in Hwin. specialize (Hwin (Ticks st)). lia.
Qed.

Lemma calls_for_called k key c (st : State World) :
  key <> k -> calls_for k (called World key c st) = calls_for k st.
Proof.
  intros Hne. unfold calls_for, called. simpl.
  rewrite filter_app, filter_cons_False by (simpl; assumption).
  rewrite filter_nil. now rewrite app_nil_r.
Qed.

Ltac provisionIndex_cases document st :=
  unfold Persister.provisionIndex;
  destruct (IndexExists (IndexName document) (Store st)) as [?w [[|] | ?err]];
  [ | simpl;
      destruct (CreateIndex (IndexName document) (Mappings (IndexBaseName document)) w)
        as [?w [[|] | ?err]] | ].

Lemma provisionIndex_frame document (st : State World) :
  let st' := fst (provisionIndex document st) in
  Bulks st' = Bulks st /\ Ticks st <= Ticks st'.
Proof. provisionIndex_cases document st; simpl; split; (reflexivity || lia). Qed.

Lemma provisionIndex_other k document (st : State World) :
  cacheKey document <> k ->
  let st' := fst (provisionIndex document st) in
  Cache st' !! k = Cache st !! k /\ calls_for k st' = calls_for k st.
Proof.
  intros Hne. provisionIndex_cases document st; simpl;
    unfold calls_for; simpl;
    repeat rewrite filter_app;
    repeat rewrite filter_cons_False by (simpl; assumption);
    repeat rewrite filter_nil; repeat rewrite app_nil_r;
    (split; [| reflexivity]);
    solve [reflexivity | now apply lookup_insert_ne].
Qed.

Lemma provision_frame document (st : State World) :
  let st' := fst (provision document st) in
  Bulks st' = Bulks st /\ Ticks st <= Ticks st'.
Proof.
  unfold Persister.provision.
  pose proof (CacheGet_frame (cacheKey document) st) as (_ & _ & HB & HT).
  destruct (CacheGet (cacheKey document) st) as [st0 [|]]; simpl in *; [auto |].
  pose proof (provisionIndex_frame document st0) as (HB' & HT'). simpl in *.
  split; [congruence | lia].
Qed.

Lemma unexpired_between_narrow item a b a' b' :
  a <= a' -> b' <= b ->
  unexpired_between clock item a b -> unexpired_between clock item a' b'.
Proof. intros Ha Hb H n Hn. apply H. lia. Qed.

(** *** A marked key inside its TTL window *)

Lemma provision_quiet k item document (st : State World) :
  Cache st !! k = Some item ->
  unexpired_between clock item (Ticks st) (Ticks (fst (provision document st))) ->
  let st' := fst (provision document st) in
  Cache st' !! k = Some item /\ calls_for k st' = calls_for k st.
Proof.
  intros Hk Hwin. unfold Persister.provision in *.
  pose proof (CacheGet_frame (cacheKey document) st) as (HC & HK & _ & HT).
  destruct (decide (cacheKey document = k)) as [Heq | Hne].
  - subst k. pose proof (CacheGet_live (cacheKey document) item st Hk) as Hlive.
    destruct (CacheGet (cacheKey document) st) as [st0 found]; simpl in *.
    assert (found = true) as ->.
    { apply Hlive. destruct found; simpl in Hwin; [assumption |].
      pose proof (provisionIndex_frame document st0) as (_ & HT'). simpl in HT'.
      eapply unexpired_between_narrow; [| | exact Hwin]; lia. }
    simpl. unfold calls_for. rewrite HC, HK. auto.
  - destruct (CacheGet (cacheKey document) st) as [st0 [|]]; simpl in *.
    + unfold calls_for. rewrite HC, HK. auto.
    + pose proof (provisionIndex_other k document st0 Hne) as (HC' & HK').
      simpl in *. rewrite HC', HK'. unfold calls_for. rewrite HC, HK. auto.
Qed.

Lemma addDocuments_frame documents : forall req (st : State World),
  let st' := snd (addDocuments documents req st) in
  Bulks st' = Bulks st /\ Ticks st <= Ticks st'.
Proof.
  induction documents as [| document rest IH]; intros req st; simpl; [auto |].
  pose proof (provision_frame document st) as (HB & HT).
  destruct (provision document st) as [st0 outcome]. simpl in *.
  destruct (passed outcome);
    [destruct (IH (req ++ [NewBulkIndexRequest document]) st0) as (HB' & HT')
    | destruct (IH req st0) as (HB' & HT')];
    simpl in *; (split; [congruence | lia]).
Qed.

Lemma addDocuments_quiet k item documents : forall req (st : State World),
  Cache st !! k = Some item ->
  unexpired_between clock item (Ticks st) (Ticks (snd (addDocuments documents req st))) ->
  let st' := snd (addDocuments documents req st) in
  Cache st' !! k = Some item /\ calls_for k st' = calls_for k st.
Proof.
  induction documents as [| document rest IH]; intros req st Hk Hwin; simpl in *; [auto |].
  pose proof (provision_frame document st) as (_ & HT).
  pose proof (provision_quiet k item document st Hk) as Hq.
  destruct (provision document st) as [st0 outcome]. simpl in *.
  assert (forall req', Ticks st0 <= Ticks (snd (addDocuments rest req' st0))) as Hmono
    by (intros req'; apply addDocuments_frame).
  destruct (passed outcome).
  - destruct Hq as (Hk0 & Hc0).
    { eapply unexpired_between_narrow; [| | exact Hwin]; [lia | apply Hmono]. }
    destruct (IH (req ++ [NewBulkIndexRequest document]) st0 Hk0) as (Hk1 & Hc1).
    { eapply unexpired_between_narrow; [| | exact Hwin]; lia. }
    split; [assumption | congruence].
  - destruct Hq as (Hk0 & Hc0).
    { eapply unexpired_between_narrow; [| | exact Hwin]; [lia | apply Hmono]. }
    destruct (IH req st0 Hk0) as (Hk1 & Hc1).
    { eapply unexpired_between_narrow; [| | exact Hwin]; lia. }
    split; [assumption | congruence].
Qed.

Lemma submitBulk_frame req (st : State World) :
  let st' := submitBulk req st in
  Cache st' = Cache st /\ Ticks st' = Ticks st /\ Calls st' = Calls st /\
  Bulks st' = Bulks st ++ [req].
Proof.
  unfold Persister.submitBulk.
  destruct (BulkDo req (Store st)) as [w [[response |] [e |]]]; simpl; auto.
  rewrite inspect_foldl.
  destruct (foldl_inspectItem (Indexed response)
              (executed World req (with_store World w st))) as (_ & HC & HT & _ & HK & HB).
  simpl in *. auto.
Qed.

Lemma bulkSaveDocument_ticks documents (st : State World) :
  Ticks st <= Ticks (bulkSaveDocument documents st).
Proof.
  unfold Persister.bulkSaveDocument.
  pose proof (addDocuments_frame documents [] st) as (_ & HT).
  destruct (addDocuments documents [] st) as [req st0]. simpl in *.
  destruct (submitBulk_frame req st0) as (_ & HT' & _). simpl in HT'. lia.
Qed.

Lemma bulkSaveDocument_quiet k item documents (st : State World) :
  Cache st !! k = Some item ->
  unexpired_between clock item (Ticks st) (Ticks (bulkSaveDocument documents st)) ->
  let st' := bulkSaveDocument documents st in
  Cache st' !! k = Some item /\ calls_for k st' = calls_for k st.
Proof.
  intros Hk Hwin. unfold Persister.bulkSaveDocument in *.
  pose proof (addDocuments_quiet k item documents [] st Hk) as Hq.
  destruct (addDocuments documents [] st) as [req st0]. simpl in *.
  destruct (submitBulk_frame req st0) as (HC & HT & HK & _). simpl in *.
  rewrite HT in Hwin. destruct (Hq Hwin) as (Hk0 & Hc0).
  unfold calls_for in *. rewrite HC, HK. auto.
Qed.

Lemma documentLoop_ticks events : forall st : State World,
  Ticks st <= Ticks (fst (documentLoop events st)).
Proof.
  induction events as [| [queue | err] rest IH]; intros st; simpl; [lia | | lia].
  pose proof (bulkSaveDocument_ticks queue st). specialize (IH (bulkSaveDocument queue st)).
  lia.
Qed.

Lemma documentLoop_quiet k item events : forall st : State World,
  Cache st !! k = Some item ->
  unexpired_between clock item (Ticks st) (Ticks (fst (documentLoop events st))) ->
  calls_for k (fst (documentLoop events st)) = calls_for k st.
Proof.
  induction events as [| [queue | err] rest IH]; intros st Hk Hwin; simpl in *;
    [reflexivity | | reflexivity].
  pose proof (bulkSaveDocument_ticks queue st) as HT.
  pose proof (documentLoop_ticks rest (bulkSaveDocument queue st)) as HT'.
  destruct (bulkSaveDocument_quiet k item queue st Hk) as (Hk0 & Hc0).
  { eapply unexpired_between_narrow; [| | exact Hwin]; lia. }
  rewrite IH; [assumption | assumption |].
  eapply unexpired_between_narrow; [| | exact Hwin]; lia.
Qed.

Lemma provision_marks document (st st1 : State World) outcome :
  provision document st = (st1, outcome) ->
  passed outcome = true ->
  exists item, Cache st1 !! cacheKey document = Some item /\
    (outcome = CacheHit \/
     item = mkItem true (clock (pred (Ticks st1)) + defaultExpiration)).
Proof.
  unfold Persister.provision.
  pose proof (CacheGet_frame (cacheKey document) st) as (HC & _).
  destruct (CacheGet (cacheKey document) st) as [st0 found] eqn:Hget. simpl in HC.
  destruct found.
  - intros [= <- <-] _. rewrite HC.
    unfold Persister.CacheGet in Hget.
    destruct (Cache st !! cacheKey document) as [item |]; [eauto | discriminate].
  - provisionIndex_cases document st0; simpl; intros [= <- <-] Hp;
      try discriminate Hp;
      (eexists; split; [apply lookup_insert_eq | right; reflexivity]).
Qed.

(** *** The claims about the persister *)

(** C10.  Inspecting the indexed items of a bulk response logs one warning
    for each item whose status is not 201, in order, and nothing for an
    item with status 201; an item with status 200 is therefore logged.
    Nothing but the log changes. *)
Theorem non_201_items_are_logged indexed (st : State World) :
  let st' := inspect indexed st in
  Log st' = Log st ++ (itemWarning <$> filter (fun value => Status value <> 201%Z) indexed) /\
  Cache st' = Cache st /\ Ticks st' = Ticks st /\ Store st' = Store st /\
  Calls st' = Calls st /\ Bulks st' = Bulks st /\
  (forall value, Status value = 200%Z ->
     Log (inspect [value] st) = Log st ++ [itemWarning value]) /\
  (forall value, Status value = 201%Z -> inspect [value] st = st).
Proof.
  simpl. rewrite inspect_foldl.
  destruct (foldl_inspectItem indexed st) as (HL & HC & HT & HS & HK & HB).
  repeat split; try assumption.
  - intros value H200. unfold inspect, inspectItem. simpl.
    destruct (decide (Status value <> 201%Z)) as [_ | Heq]; [reflexivity |].
    exfalso. apply Heq. rewrite H200. discriminate.
  - intros value H201. unfold inspect, inspectItem. simpl.
    destruct (decide (Status value <> 201%Z)) as [Hne | _]; [| reflexivity].
    contradiction.
Qed.

End properties.

(** C6 (counterexample).  Two documents with the same cache key arrive in
    one batch while the clock stands still; the index is missing and its
    creation fails, so the key is never marked and each document issues
    its own [IndexExists] and [CreateIndex] request. *)
Lemma failed_provisioning_repeats_calls :
  cacheKey E1 = cacheKey E2 /\
  calls_for (cacheKey E1)
    (snd (addDocuments unit index_missing create_fails plain_mappings frozen_clock
            [E1; E2] [] cold_start)) =
  [IndexExistsCall "traces-2024"; CreateIndexCall "traces-2024" "{}";
   IndexExistsCall "traces-2024"; CreateIndexCall "traces-2024" "{}"].
Proof. split; vm_compute; reflexivity. Qed.

(** *** Further properties of the persister *)

Lemma append_assoc (a b c : string) : (a +:+ b) +:+ c = a +:+ (b +:+ c).
Proof.
  induction a as [| x a IH]; [reflexivity |].
  change (String x ((a +:+ b) +:+ c) = String x (a +:+ (b +:+ c))).
  now rewrite IH.
Qed.

Section provisioning.
Context {World BulkResponse : Type}.
Variable IndexExists : string -> World -> World * (bool + error).
Variable CreateIndex : string -> string -> World -> World * (bool + error).
Variable BulkDo : list BulkIndexRequest -> World -> World * (option BulkResponse * option error).
Variable Indexed : BulkResponse -> list BulkResponseItem.
Variable Mappings : string -> string.
Variable clock : nat -> Z.

Local Abbreviation CacheGet := (CacheGet World clock).
Local Abbreviation provisionIndex := (provisionIndex World IndexExists CreateIndex Mappings clock).
Local Abbreviation provision := (provision World IndexExists CreateIndex Mappings clock).
Local Abbreviation addDocuments := (addDocuments World IndexExists CreateIndex Mappings clock).
Local Abbreviation outcomes := (outcomes World IndexExists CreateIndex Mappings clock).
Local Abbreviation submitBulk := (submitBulk World BulkResponse BulkDo Indexed).
Local Abbreviation bulkSaveDocument :=
  (bulkSaveDocument World IndexExists CreateIndex BulkResponse BulkDo Indexed Mappings clock).
Local Abbreviation documentLoop :=
  (documentLoop World IndexExists CreateIndex BulkResponse BulkDo Indexed Mappings clock).

Ltac provisionIndex_split document st :=
  unfold Persister.provisionIndex;
  destruct (IndexExists (IndexName document) (Store st)) as [?w [[|] | ?err]];
  [ | simpl;
      destruct (CreateIndex (IndexName document) (Mappings (IndexBaseName document)) w)
        as [?w [[|] | ?err]] | ].

Local Abbreviation store_admits := (store_admits IndexExists CreateIndex Mappings).
Local Abbreviation provisioning_fails := (provisioning_fails IndexExists CreateIndex Mappings).
Local Abbreviation store_requests := (store_requests IndexExists Mappings).
Local Abbreviation provisioned := (provisioned IndexExists CreateIndex Mappings clock).
Local Abbreviation provisioned_ops := (provisioned_ops IndexExists CreateIndex Mappings clock).

Lemma store_admits_false document (w : World) :
  store_admits document w = false <-> provisioning_fails document w.
Proof.
  unfold Persister.store_admits, Persister.provisioning_fails.
  destruct (IndexExists (IndexName document) w) as [w1 [[|] | err]]; simpl.
  - split; [discriminate |]. intros [[err H] | [H _]]; discriminate H.
  - destruct (CreateIndex (IndexName document) (Mappings (IndexBaseName document)) w1)
      as [w2 [[|] | err]]; simpl.
    + split; [discriminate |].
      intros [[err H] | [_ [[err H] | H]]]; discriminate H.
    + split; [| reflexivity]. intros _. right. split; [reflexivity |]. now right.
    + split; [| reflexivity]. intros _. right. split; [reflexivity |]. left. eauto.
  - split; [| reflexivity]. intros _. left. eauto.
Qed.

Lemma CacheGet_Store k (st : State World) : Store (fst (CacheGet k st)) = Store st.
Proof.
  unfold Persister.CacheGet.
  destruct (Cache st !! k) as [item |]; [| reflexivity].
  destruct (0 <? Expiration item)%Z; [| reflexivity].
  destruct (Expiration item <? clock (Ticks st))%Z; reflexivity.
Qed.

Lemma CacheGet_absent k (st : State World) :
  Cache st !! k = None -> CacheGet k st = (st, false).
Proof. unfold Persister.CacheGet. now intros ->. Qed.

Lemma provisionIndex_by_response document (st : State World) :
  let st' := fst (provisionIndex document st) in
  passed (snd (provisionIndex document st)) = store_admits document (Store st) /\
  Calls st' = Calls st ++ (pair (cacheKey document) <$> store_requests document (Store st)) /\
  Cache st' =
    (if store_admits document (Store st)
     then <[cacheKey document := mkItem true (clock (pred (Ticks st')) + defaultExpiration)]>
            (Cache st)
     else Cache st).
Proof.
  unfold Persister.provisionIndex, Persister.store_admits, Persister.store_requests.
  destruct (IndexExists (IndexName document) (Store st)) as [w [[|] | err]]; simpl;
    [ | destruct (CreateIndex (IndexName document) (Mappings (IndexBaseName document)) w)
          as [w1 [[|] | err]]; simpl | ];
    rewrite <- ?app_assoc; repeat split.
Qed.

(** Provisioning in terms of the cache lookup and the store's answers. *)
Lemma provision_by_response document (st : State World) :
  let found := snd (CacheGet (cacheKey document) st) in
  let st' := fst (provision document st) in
  passed (snd (provision document st)) = provisioned document st /\
  Calls st' =
    Calls st ++
      (pair (cacheKey document) <$>
         (if found then [] else store_requests document (Store st))) /\
  Cache st' =
    (if negb found && store_admits document (Store st)
     then <[cacheKey document := mkItem true (clock (pred (Ticks st')) + defaultExpiration)]>
            (Cache st)
     else Cache st).
Proof.
  unfold Persister.provision, Persister.provisioned.
  pose proof (CacheGet_frame clock (cacheKey document) st) as (HC & HK & _).
  pose proof (CacheGet_Store (cacheKey document) st) as HS.
  destruct (CacheGet (cacheKey document) st) as [st0 [|]]; simpl in *.
  - rewrite app_nil_r. auto.
  - rewrite <- HC, <- HK, <- HS. apply provisionIndex_by_response.
Qed.

Lemma calls_tagged k (tagged : list (string * StoreCall)) (l : list StoreCall) :
  snd <$> filter (fun c => fst c = k) (tagged ++ (pair k <$> l)) =
  (snd <$> filter (fun c => fst c = k) tagged) ++ l.
Proof.
  rewrite filter_app, fmap_app. f_equal.
  induction l as [| c rest IH]; [reflexivity |].
  rewrite fmap_cons, filter_cons_True by reflexivity.
  rewrite fmap_cons. simpl. f_equal. exact IH.
Qed.

Lemma addDocuments_provisioned documents : forall req (st : State World),
  fst (addDocuments documents req st) = req ++ provisioned_ops documents st.
Proof.
  induction documents as [| document rest IH]; intros req st; simpl.
  - now rewrite app_nil_r.
  - pose proof (provision_by_response document st) as (Hpass & _).
    destruct (provision document st) as [st' outcome]. simpl in *.
    rewrite <- Hpass. destruct (passed outcome); rewrite IH; [| reflexivity].
    now rewrite <- app_assoc.
Qed.

Lemma provisioned_ops_sublist documents : forall st : State World,
  provisioned_ops documents st `sublist_of` (NewBulkIndexRequest <$> documents).
Proof.
  induction documents as [| document rest IH]; intros st; simpl; [constructor |].
  destruct (provisioned document st); simpl.
  - apply sublist_skip, IH.
  - apply sublist_cons, IH.
Qed.

(** C6 (amended).  A document's provisioning either marks its cache key or
    leaves it unmarked, by what the store answers.  When the document
    passes, its key is present (freshly marked keys expire 60 s after the
    clock reading taken by [Set]), and as long as no clock reading taken by
    the cache exceeds that expiry, neither the remaining documents of the
    batch nor those of any later batch cause an [IndexExists] or
    [CreateIndex] request for that key.  When the key is absent and the
    store fails the document (existence-query error, create error, or
    unacknowledged create), the document is skipped, the cache is left as
    it was, the requests made were its own, and the next document with
    that key issues its own requests again, beginning with
    [IndexExists]. *)
Theorem key_marked_by_success_only document (st st1 : State World) outcome
    (rest : list Document) (req : list BulkIndexRequest) (events : list Select) :
  provision document st = (st1, outcome) ->
  (passed outcome = true ->
   exists item,
     Cache st1 !! cacheKey document = Some item /\
     (outcome = CacheHit \/
      item = mkItem true (clock (pred (Ticks st1)) + defaultExpiration)) /\
     let batch := addDocuments rest req st1 in
     let st2 := fst (documentLoop events (submitBulk (fst batch) (snd batch))) in
     ((forall n, Ticks st1 <= n < Ticks st2 -> (clock n <= Expiration item)%Z) ->
      calls_for (cacheKey document) st2 = calls_for (cacheKey document) st1)) /\
  (Cache st !! cacheKey document = None ->
   provisioning_fails document (Store st) ->
   passed outcome = false /\
   Cache st1 = Cache st /\
   calls_for (cacheKey document) st1 =
     calls_for (cacheKey document) st ++ store_requests document (Store st) /\
   forall next,
     cacheKey next = cacheKey document ->
     exists more,
       store_requests next (Store st1) = IndexExistsCall (IndexName next) :: more /\
       calls_for (cacheKey document) (fst (provision next st1)) =
         calls_for (cacheKey document) st1 ++ store_requests next (Store st1)).
Proof.
  intros Hprov. split.
  - intros Hpass.
    destruct (provision_marks IndexExists CreateIndex Mappings clock
                document st st1 outcome Hprov Hpass) as (item & Hitem & Hfresh).
    exists item. split; [assumption |]. split; [assumption |].
    intros batch st2 Hwin. subst st2 batch.
    pose proof (addDocuments_frame IndexExists CreateIndex Mappings clock rest req st1)
      as (_ & HT1).
    pose proof (addDocuments_quiet IndexExists CreateIndex Mappings clock
                  (cacheKey document) item rest req st1 Hitem) as Hq.
    destruct (addDocuments rest req st1) as [req' st']. simpl in *.
    destruct (submitBulk_frame BulkDo Indexed req' st') as (HC & HT & HK & _). simpl in *.
    pose proof (documentLoop_ticks IndexExists CreateIndex BulkDo Indexed Mappings clock
                  events (submitBulk req' st')) as HT2.
    destruct Hq as (Hk' & Hc').
    { intros n Hn. apply Hwin. lia. }
    rewrite (documentLoop_quiet IndexExists CreateIndex BulkDo Indexed Mappings clock
               (cacheKey document) item).
    + unfold calls_for in *. now rewrite HK.
    + now rewrite HC.
    + intros n Hn. apply Hwin. lia.
  - intros Habsent Hfails.
    apply store_admits_false in Hfails.
    pose proof (provision_by_response document st) as (Hpass & Hcalls & Hcache).
    rewrite Hprov in Hpass, Hcalls, Hcache. simpl in Hpass, Hcalls, Hcache.
    unfold Persister.provisioned in Hpass.
    rewrite (CacheGet_absent _ _ Habsent) in Hpass, Hcalls, Hcache.
    simpl in Hpass, Hcalls, Hcache. rewrite Hfails in Hpass, Hcache.
    split; [exact Hpass |]. split; [exact Hcache |]. split.
    + unfold calls_for. rewrite Hcalls. apply calls_tagged.
    + intros next Hkey. split with
        (match snd (IndexExists (IndexName next) (Store st1)) with
         | inl false =>
             [CreateIndexCall (IndexName next) (Mappings (IndexBaseName next))]
         | _ => []
         end).
      split.
      * unfold Persister.store_requests.
        destruct (snd (IndexExists (IndexName next) (Store st1))) as [[|] | e]; reflexivity.
      * pose proof (provision_by_response next st1) as (_ & Hcalls' & _).
        rewrite Hkey in Hcalls'. rewrite <- Hcache in Habsent.
        rewrite (CacheGet_absent _ _ Habsent) in Hcalls'. simpl in Hcalls'.
        unfold calls_for. rewrite Hcalls'. apply calls_tagged.
Qed.

(** C7.  The bulk request executed for a batch of N documents holds, in
    batch order, one index operation for each document that is served from
    the cache or admitted by the store, and none for a document that
    missed the cache and met an existence-query error, a create error or an
    unacknowledged create; each document is judged in the state the loop
    has reached, a skipped document does not end the loop, and the request
    has at most N operations. *)
Theorem bulk_request_excludes_failed_documents documents (st : State World) :
  let req := provisioned_ops documents st in
  Bulks (bulkSaveDocument documents st) = Bulks st ++ [req] /\
  length req <= length documents /\
  req `sublist_of` (NewBulkIndexRequest <$> documents) /\
  (forall document (st' : State World),
     provisioned document st' = false <->
     snd (CacheGet (cacheKey document) st') = false /\
     provisioning_fails document (Store st')).
Proof.
  intros req. subst req.
  pose proof (provisioned_ops_sublist documents st) as Hsub.
  split; [| split; [| split; [exact Hsub |]]].
  - unfold Persister.bulkSaveDocument.
    pose proof (addDocuments_provisioned documents [] st) as Hops.
    pose proof (addDocuments_frame IndexExists CreateIndex Mappings clock documents [] st)
      as (HB & _).
    destruct (addDocuments documents [] st) as [req st']. simpl in *. subst req.
    destruct (submitBulk_frame BulkDo Indexed (provisioned_ops documents st) st')
      as (_ & _ & _ & HB').
    simpl in HB'. now rewrite HB', HB.
  - apply sublist_length in Hsub. now rewrite length_fmap in Hsub.
  - intros document st'. unfold Persister.provisioned.
    rewrite orb_false_iff, store_admits_false. reflexivity.
Qed.

(** X7.  The provisioning requests a document causes are fixed by the cache
    lookup and the store's answer: none when it is served from the cache;
    otherwise one [IndexExists] for its index, followed by one [CreateIndex]
    for the same index with the mapping registered for its base name exactly
    when the store answers that the index does not exist.  No document
    causes more than one request of either kind. *)
Theorem provisioning_requests_by_response document (st : State World) :
  Calls (fst (provision document st)) =
  Calls st ++
    (pair (cacheKey document) <$>
       (if snd (CacheGet (cacheKey document) st) then []
        else match snd (IndexExists (IndexName document) (Store st)) with
             | inl false =>
                 [IndexExistsCall (IndexName document);
                  CreateIndexCall (IndexName document) (Mappings (IndexBaseName document))]
             | _ => [IndexExistsCall (IndexName document)]
             end)).
Proof. exact (proj1 (proj2 (provision_by_response document st))). Qed.

(** X8.  The cache is written only when a document that missed the cache
    is admitted by the store (the index exists, or is created with
    acknowledgment), and then only at the document's own key, set to
    expire 60 s after the clock reading taken by [Set]; when the document
    is served from the cache, or the existence query fails, or the create
    fails or is not acknowledged, the cache is exactly as it was. *)
Theorem cache_written_by_response document (st : State World) :
  let st' := fst (provision document st) in
  (snd (CacheGet (cacheKey document) st) = false ->
   store_admits document (Store st) = true ->
   Cache st' =
     <[cacheKey document := mkItem true (clock (pred (Ticks st')) + defaultExpiration)]>
       (Cache st)) /\
  (snd (CacheGet (cacheKey document) st) = true -> Cache st' = Cache st) /\
  (provisioning_fails document (Store st) -> Cache st' = Cache st).
Proof.
  intros st'. subst st'.
  pose proof (provision_by_response document st) as (_ & _ & Hcache). simpl in Hcache.
  repeat split.
  - intros Hmiss Hadmit. now rewrite Hcache, Hmiss, Hadmit.
  - intros Hhit. now rewrite Hcache, Hhit.
  - intros Hfails. apply store_admits_false in Hfails.
    rewrite Hcache, Hfails. now rewrite andb_false_r.
Qed.

Lemma provisionIndex_not_hit document (st : State World) :
  snd (provisionIndex document st) <> CacheHit.
Proof. provisionIndex_split document st; simpl; discriminate. Qed.

(** X9.  A document is served from the cache exactly when its key has an
    entry that either never expires or whose expiry is not before the
    clock reading: an entry read at the very nanosecond of its expiry is
    still a hit, one read later is treated like a missing key. *)
Theorem cache_hit_iff_entry_live document (st : State World) :
  snd (provision document st) = CacheHit <->
  exists item, Cache st !! cacheKey document = Some item /\
    ((0 < Expiration item)%Z -> (clock (Ticks st) <= Expiration item)%Z).
Proof.
  unfold Persister.provision, Persister.CacheGet.
  destruct (Cache st !! cacheKey document) as [item |].
  - destruct (Z.ltb_spec 0 (Expiration item)) as [Hpos | Hnon].
    + destruct (Z.ltb_spec (Expiration item) (clock (Ticks st))) as [Hexp | Hlive]; simpl.
      * split; [intros H; now apply provisionIndex_not_hit in H |].
        intros (item' & [= <-] & Hle). specialize (Hle Hpos). lia.
      * split; [| reflexivity]. intros _. exists item. auto.
    + simpl. split; [| reflexivity]. intros _. exists item. split; [reflexivity | lia].
  - simpl. split; [intros H; now apply provisionIndex_not_hit in H |].
    intros (item & Hitem & _). discriminate.
Qed.

Lemma bulkSaveDocument_bulks documents (st : State World) :
  exists req, Bulks (bulkSaveDocument documents st) = Bulks st ++ [req] /\
    req `sublist_of` (NewBulkIndexRequest <$> documents).
Proof.
  unfold Persister.bulkSaveDocument.
  pose proof (addDocuments_ops IndexExists CreateIndex Mappings clock documents [] st) as Hops.
  pose proof (addDocuments_frame IndexExists CreateIndex Mappings clock documents [] st)
    as (HB & _).
  destruct (addDocuments documents [] st) as [req st']. simpl in *. subst req.
  destruct (submitBulk_frame BulkDo Indexed (passed_ops documents (outcomes documents st)) st')
    as (_ & _ & _ & HB').
  simpl in HB'. eexists. split; [now rewrite HB', HB |].
  apply passed_ops_sublist.
Qed.

Lemma documentLoop_bulks events : forall st : State World,
  exists reqs, Bulks (fst (documentLoop events st)) = Bulks st ++ reqs /\
    Forall2 (fun req batch => req `sublist_of` (NewBulkIndexRequest <$> batch))
      reqs (batches events).
Proof.
  induction events as [| [queue | err] rest IH]; intros st; simpl.
  - exists []. rewrite app_nil_r. split; [reflexivity | constructor].
  - destruct (bulkSaveDocument_bulks queue st) as (req & HB & Hsub).
    destruct (IH (bulkSaveDocument queue st)) as (reqs & HB' & Hall).
    exists (req :: reqs). rewrite HB', HB, <- app_assoc. split; [reflexivity |].
    now constructor.
  - exists []. rewrite app_nil_r. split; [reflexivity | constructor].
Qed.

(** X10.  The persister executes exactly one bulk request per batch it
    receives before the first [ctx.Done], in order, and each request is an
    in-order selection of the operations of its own batch: nothing carries
    over between batches, a batch whose documents were all skipped (or an
    empty batch) still gets its (empty) request, and a failed bulk is never
    retried. *)
Theorem one_bulk_request_per_batch events (st : State World) :
  exists reqs,
    Bulks (fst (documentLoop events st)) = Bulks st ++ reqs /\
    length reqs = length (batches events) /\
    Forall2 (fun req batch => req `sublist_of` (NewBulkIndexRequest <$> batch))
      reqs (batches events).
Proof.
  destruct (documentLoop_bulks events st) as (reqs & HB & Hall).
  exists reqs. split; [assumption |]. split; [| assumption].
  now apply Forall2_length in Hall.
Qed.

(** X11.  The cache key has no separator, so a document with index [a] and
    type [b ++ c] has the key of a document with index [a ++ b] and type
    [c].  Once the latter has passed provisioning, the former is a cache hit
    while the entry lives: it is added to the bulk request although no
    request was ever made about its own index [a]. *)
Theorem aliased_key_skips_provisioning (a b c base1 base2 p1 p2 : string)
    (st st1 : State World) outcome :
  let d1 := mkDocument (a +:+ b) base1 c p1 in
  let d2 := mkDocument a base2 (b +:+ c) p2 in
  provision d1 st = (st1, outcome) ->
  passed outcome = true ->
  cacheKey d2 = cacheKey d1 /\
  exists item, Cache st1 !! cacheKey d1 = Some item /\
    ((clock (Ticks st1) <= Expiration item)%Z ->
     snd (provision d2 st1) = CacheHit /\
     Calls (fst (provision d2 st1)) = Calls st1 /\
     Store (fst (provision d2 st1)) = Store st1).
Proof.
  intros d1 d2 Hprov Hpass.
  assert (Hkey : cacheKey d2 = cacheKey d1).
  { unfold cacheKey, d1, d2. cbn [IndexName TypeName]. now rewrite append_assoc. }
  split; [exact Hkey |].
  destruct (provision_marks IndexExists CreateIndex Mappings clock d1 st st1 outcome Hprov Hpass)
    as (item & Hitem & _).
  exists item. split; [exact Hitem |]. intros Hlive.
  unfold Persister.provision, Persister.CacheGet. rewrite Hkey, Hitem.
  destruct (0 <? Expiration item)%Z; [| simpl; auto].
  destruct (Z.ltb_spec (Expiration item) (clock (Ticks st1))); [lia |].
  simpl. auto.
Qed.

End provisioning.

(** Two cold starts.  With the index present, the first document verifies
    it and marks the key, and the rest of its batch and the next batch add
    no request for that key.  With the index missing and its creation
    failing, the first document leaves the cache empty and the second one
    asks again. *)
Lemma key_marked_by_success_only_witness :
  (provision unit index_present create_fails plain_mappings stepping_clock E1 cold_start
     = (warm, VerifiedExisting) /\
   Cache warm !! cacheKey E1 = Some (mkItem true 60000000000) /\
   calls_for (cacheKey E1)
     (fst (documentLoop unit index_present create_fails (list BulkResponseItem)
             bulk_created items_of plain_mappings stepping_clock
             [RecvQueue [E2; E1]; CtxDone "context canceled"]
             (submitBulk unit (list BulkResponseItem) bulk_created items_of
                (fst (addDocuments unit index_present create_fails plain_mappings
                        stepping_clock [E2] [NewBulkIndexRequest E1] warm))
                (snd (addDocuments unit index_present create_fails plain_mappings
                        stepping_clock [E2] [NewBulkIndexRequest E1] warm)))))
   = [IndexExistsCall "traces-2024"]) /\
  (provisioning_fails index_missing create_fails plain_mappings E1 tt /\
   Cache (fst (provision unit index_missing create_fails plain_mappings frozen_clock
                 E1 cold_start)) = ∅ /\
   calls_for (cacheKey E1)
     (fst (provision unit index_missing create_fails plain_mappings frozen_clock E2
             (fst (provision unit index_missing create_fails plain_mappings frozen_clock
                     E1 cold_start))))
   = [IndexExistsCall "traces-2024"; CreateIndexCall "traces-2024" "{}";
      IndexExistsCall "traces-2024"; CreateIndexCall "traces-2024" "{}"]).
Proof.
  split.
  - split; [vm_compute; reflexivity |].
    split; [vm_compute; reflexivity |].
    destruct (key_marked_by_success_only index_present create_fails bulk_created items_of
                plain_mappings stepping_clock E1 cold_start warm VerifiedExisting
                [E2] [NewBulkIndexRequest E1]
                [RecvQueue [E2; E1]; CtxDone "context canceled"]
                ltac:(vm_compute; reflexivity))
      as (Hmarked & _).
    destruct (Hmarked eq_refl) as (item & Hitem & _ & Hquiet).
    assert (item = mkItem true 60000000000) as ->.
    { vm_compute in Hitem. now injection Hitem as <-. }
    cbv zeta in Hquiet. rewrite Hquiet; [vm_compute; reflexivity |].
    intros n [_ Hn]. unfold stepping_clock. simpl.
    vm_compute in Hn. lia.
  - assert (Hfails : provisioning_fails index_missing create_fails plain_mappings E1 tt).
    { right. split; [reflexivity |]. left. eexists. reflexivity. }
    split; [exact Hfails |].
    destruct (key_marked_by_success_only index_missing create_fails bulk_created items_of
                plain_mappings frozen_clock E1 cold_start
                (fst (provision unit index_missing create_fails plain_mappings frozen_clock
                        E1 cold_start))
                SkipCreateError [] [] []
                ltac:(vm_compute; reflexivity))
      as (_ & Hunmarked).
    destruct (Hunmarked eq_refl Hfails) as (_ & Hcache & Hcalls & Hnext).
    split; [rewrite Hcache; reflexivity |].
    destruct (Hnext E2 eq_refl) as (more & _ & Hagain).
    rewrite Hagain, Hcalls. vm_compute. reflexivity.
Defined.

(** Index [traces-20] with type [24span] against the marked key of index
    [traces-2024] with type [span]. *)
Lemma aliased_key_skips_provisioning_witness :
  provision unit index_present create_fails plain_mappings stepping_clock
    (mkDocument ("traces-20" +:+ "24") "traces" "span" "p1") cold_start
    = (warm, VerifiedExisting) /\
  snd (provision unit index_present create_fails plain_mappings stepping_clock
         (mkDocument "traces-20" "other" ("24" +:+ "span") "p2") warm) = CacheHit /\
  Calls (fst (provision unit index_present create_fails plain_mappings stepping_clock
                (mkDocument "traces-20" "other" ("24" +:+ "span") "p2") warm))
    = [("traces-2024span", IndexExistsCall "traces-2024")].
Proof.
  split; [vm_compute; reflexivity |].
  destruct (aliased_key_skips_provisioning index_present create_fails plain_mappings
              stepping_clock "traces-20" "24" "span" "traces" "other" "p1" "p2"
              cold_start warm VerifiedExisting
              ltac:(vm_compute; reflexivity) eq_refl)
    as (_ & item & Hitem & Hhit).
  assert (item = mkItem true 60000000000) as ->.
  { vm_compute in Hitem. now injection Hitem as <-. }
  destruct Hhit as (Hout & Hcalls & _); [vm_compute; discriminate |].
  split; [exact Hout |].
  rewrite Hcalls. vm_compute. reflexivity.
Defined.

End Persister.

(** ** HTTP intake: [HTTPCollector] *)
Module HTTP.

(** The ASCII double quote, for the JSON bodies the handler writes. *)
Definition dquote : string := String (Ascii.ascii_of_nat 34) EmptyString.

(** The body [{"msg": text}], with a space after the colon. *)
Definition msg (text : string) : string :=
  "{" +:+ dquote +:+ "msg" +:+ dquote +:+ ": " +:+ dquote +:+ text +:+ dquote +:+ "}".

(** A decoder that accepts every payload as one span. *)
Definition one_span (body : string) : list string * option error := ([body], None).

Section HTTPCollector.
Variable Spans : Type.
Variable ToSpans : string -> Spans * option error.

Inductive LogEntry :=
| InfoStatistics (size : Z) (addr : string)
| WarnDecode (err : error) (body : string).

(** What one call leaves behind: the bodies passed to [w.Write], the
    value handed over [SpansProcessingChan] if any, and the log lines. *)
Record Reply := mkReply {
  Written : list string;
  Sent : option Spans;
  Log : list LogEntry
}.

(** [body], [size] and [addr] are what [util.RequestBodyToString],
    [r.ContentLength] and [util.IP] yield for the request; [ready] tells
    whether a receiver is waiting on the unbuffered channel when the
    [select] with its [default] case runs. *)
Definition HTTPCollector (body : string) (size : Z) (addr : string) (ready : bool) : Reply :=
  let '(spans, err) := ToSpans body in
  match err with
  | Some e =>
      mkReply [msg "error trace log"] None [InfoStatistics size addr; WarnDecode e body]
  | None =>
      if ready
      then mkReply [msg "SpansProcessingChan <- spans"] (Some spans) [InfoStatistics size addr]
      else mkReply [msg "default"] None [InfoStatistics size addr]
  end.

(** C8.  For a request whose body decodes, the handler returns whether or
    not a receiver is ready: without one it sends nothing (the spans are
    dropped) and writes the [default] acknowledgment; with one it hands the
    spans over and writes the other acknowledgment. *)
Theorem saturated_channel_drops_spans body size addr spans :
  ToSpans body = (spans, None) ->
  HTTPCollector body size addr false
    = mkReply [msg "default"] None [InfoStatistics size addr] /\
  HTTPCollector body size addr true
    = mkReply [msg "SpansProcessingChan <- spans"] (Some spans) [InfoStatistics size addr].
Proof. intros H. unfold HTTPCollector. rewrite H. split; reflexivity. Qed.

End HTTPCollector.

Arguments mkReply {Spans} _ _ _.

(** A request whose body decodes to one span. *)
Lemma saturated_channel_drops_spans_witness :
  one_span "[span]" = (["[span]"], None) /\
  HTTPCollector (list string) one_span "[span]" 6 "10.0.0.1" false
    = mkReply [msg "default"] None [InfoStatistics 6 "10.0.0.1"] /\
  HTTPCollector (list string) one_span "[span]" 6 "10.0.0.1" true
    = mkReply [msg "SpansProcessingChan <- spans"] (Some ["[span]"])
        [InfoStatistics 6 "10.0.0.1"].
Proof.
  split; [reflexivity |].
  apply (saturated_channel_drops_spans (list string) one_span "[span]" 6 "10.0.0.1").
  reflexivity.
Defined.

(** *** Further properties of the handler *)

Arguments Written {Spans} _.
Arguments Sent {Spans} _.

Lemma acknowledgments_distinct :
  msg "error trace log" <> msg "SpansProcessingChan <- spans" /\
  msg "default" <> msg "SpansProcessingChan <- spans" /\
  msg "error trace log" <> msg "default".
Proof. repeat split; intros H; vm_compute in H; discriminate H. Qed.

Section replying.
Context {Spans : Type}.
Variable ToSpans : string -> Spans * option error.

(** X14.  Every call writes exactly one body, and the body tells what
    happened: the error body exactly when decoding failed (then nothing is
    sent, whether or not a receiver is ready), the [SpansProcessingChan]
    body exactly when the decoded spans were handed over, and the
    [default] body exactly when they were decoded and dropped. *)
Theorem reply_body_tells_outcome body size addr ready :
  let reply := HTTPCollector Spans ToSpans body size addr ready in
  (exists text, Written reply = [msg text]) /\
  (Written reply = [msg "error trace log"] <->
     is_Some (snd (ToSpans body)) /\ Sent reply = None) /\
  (Written reply = [msg "SpansProcessingChan <- spans"] <->
     snd (ToSpans body) = None /\ ready = true /\ Sent reply = Some (fst (ToSpans body))) /\
  (Written reply = [msg "default"] <->
     snd (ToSpans body) = None /\ ready = false /\ Sent reply = None).
Proof.
  destruct acknowledgments_distinct as (H1 & H2 & H3).
  unfold HTTPCollector.
  destruct (ToSpans body) as [spans [e |]]; [| destruct ready]; simpl;
    (split; [eexists; reflexivity |]);
    repeat split; try reflexivity; try (intros [= ?]); try (intros (? & ? & ?));
    try (intros (? & ?)); try discriminate; try congruence; eauto;
    try (exfalso; match goal with H : is_Some None |- _ => destruct H; discriminate end).
Qed.

End replying.

End HTTP.

(** ** Supervision: [Run] *)
Module Supervisor.

(** The three long-lived routines of the service. *)
Inductive Routine :=
| KafkaRoutine
| QueueRoutine
| DocumentRoutine.

#[global] Instance Routine_eq_dec : EqDecision Routine.
Proof. solve_decision. Defined.

(** A group is the list of functions handed to [group.Go], in call order. *)
Definition Go (group : list Routine) (f : Routine) : list Routine := group ++ [f].

(** Lines 48-50: the group [Run] waits for. *)
Definition Run_group : list Routine := Go (Go [] QueueRoutine) DocumentRoutine.

(** C4 (evaluation of [Run]).  [Run] hands [queueRoutine] and
    [documentRoutine] to the group; [kafkaRoutine] is not among the workers
    it starts. *)
Lemma kafkaRoutine_not_started :
  (KafkaRoutine ∉ Run_group) /\ Run_group = [QueueRoutine; DocumentRoutine].
Proof.
  split; [| reflexivity].
  intros H. vm_compute in H.
  repeat (apply elem_of_cons in H as [H | H]; [discriminate H |]).
  now apply not_elem_of_nil in H.
Qed.

End Supervisor.

(** ** Consumer set-up: lines 61-81 of [kafkaRoutine]

    The settings are normalised in place and copied into the consumer-group
    configuration before the group is joined. *)
Module ConsumerSetup.

(** [sarama.OffsetNewest] and [sarama.OffsetOldest]. *)
Definition OffsetNewest : Z := -1.
Definition OffsetOldest : Z := -2.

(** [5 * time.Second], in nanoseconds. *)
Definition fiveSeconds : Z := 5 * 1000000000.

(** The fields of [setting.Settings.Kafka] the set-up reads or writes:
    [Consumer.Buffer], [Consumer.Offset] and [Zookeeper.Root]. *)
Record KafkaSettings := mkSettings {
  Buffer : Z;
  Offset : string;
  Root : string
}.

(** The fields of [consumergroup.Config] the set-up writes:
    [Offsets.ProcessingTimeout], [ChannelBufferSize], [Offsets.Initial] and
    [Zookeeper.Chroot]. *)
Record Config := mkConfig {
  ProcessingTimeout : Z;
  ChannelBufferSize : Z;
  Initial : Z;
  Chroot : string
}.

Inductive LogEntry :=
| WarnOffsetInit.

(** [NewConfig] is what [consumergroup.NewConfig()] returns. *)
Definition configure (NewConfig : Config) (settings : KafkaSettings)
  : KafkaSettings * Config * list LogEntry :=
  let consumerConfig :=
    mkConfig fiveSeconds (ChannelBufferSize NewConfig) (Initial NewConfig) (Chroot NewConfig) in
  let settings :=
    if ((Buffer settings <? 0) || (1024 <? Buffer settings))%Z
    then mkSettings 10 (Offset settings) (Root settings)
    else settings in
  let consumerConfig :=
    mkConfig (ProcessingTimeout consumerConfig) (Buffer settings)
      (Initial consumerConfig) (Chroot consumerConfig) in
  let '(settings, consumerConfig, log) :=
    if decide (Offset settings = "newest") then
      (settings,
       mkConfig (ProcessingTimeout consumerConfig) (ChannelBufferSize consumerConfig)
         OffsetNewest (Chroot consumerConfig),
       [])
    else if decide (Offset settings = "oldest") then
      (settings,
       mkConfig (ProcessingTimeout consumerConfig) (ChannelBufferSize consumerConfig)
         OffsetOldest (Chroot consumerConfig),
       [])
    else
      (mkSettings (Buffer settings) "newest" (Root settings),
       mkConfig (ProcessingTimeout consumerConfig) (ChannelBufferSize consumerConfig)
         OffsetNewest (Chroot consumerConfig),
       [WarnOffsetInit]) in
  let consumerConfig :=
    if decide (Root settings <> "" /\ Root settings <> "/")
    then mkConfig (ProcessingTimeout consumerConfig) (ChannelBufferSize consumerConfig)
           (Initial consumerConfig) (Root settings)
    else consumerConfig in
  (settings, consumerConfig, log).

(** X15.  Whatever the settings hold, the configuration handed to the
    consumer group has a channel buffer between 0 and 1024 (the configured
    one when it is in that range, 10 otherwise), an initial offset that is
    oldest exactly when the setting says [oldest] and newest otherwise, a
    warning exactly when the setting is neither word, and the Zookeeper
    root as chroot unless it is empty or a lone slash; the settings are
    left holding the values actually used. *)
Theorem configure_normalises NewConfig settings :
  let '(settings', config, log) := configure NewConfig settings in
  (0 <= ChannelBufferSize config <= 1024)%Z /\
  ChannelBufferSize config =
    (if decide (0 <= Buffer settings <= 1024)%Z then Buffer settings else 10%Z) /\
  Buffer settings' = ChannelBufferSize config /\
  Initial config =
    (if decide (Offset settings = "oldest") then OffsetOldest else OffsetNewest) /\
  Offset settings' =
    (if decide (Offset settings = "oldest") then "oldest" else "newest") /\
  (log = [] <-> Offset settings = "newest" \/ Offset settings = "oldest") /\
  Chroot config =
    (if decide (Root settings = "" \/ Root settings = "/")
     then Chroot NewConfig else Root settings) /\
  Root settings' = Root settings /\
  ProcessingTimeout config = fiveSeconds.
Proof.
  unfold configure.
  destruct (Z.ltb_spec (Buffer settings) 0) as [Hneg | Hnn];
    [| destruct (Z.ltb_spec 1024 (Buffer settings)) as [Hbig | Hok]];
    simpl;
    destruct (decide (Offset settings = "newest")) as [Hn | Hn];
    [ | destruct (decide (Offset settings = "oldest")) as [Ho | Ho]
      | | destruct (decide (Offset settings = "oldest")) as [Ho | Ho]
      | | destruct (decide (Offset settings = "oldest")) as [Ho | Ho] ];
    simpl;
    destruct (decide (Root settings <> "" /\ Root settings <> "/")) as [Hr | Hr];
    simpl;
    repeat (case_decide; try lia; try congruence; try tauto);
    repeat split; try lia; try congruence; try discriminate; auto;
    try (intros [? | ?]; congruence);
    try (rewrite Hn in *; discriminate).
Qed.

(** X16.  Set-up is idempotent: run on the settings it left behind it
    returns the same settings and the same configuration, and logs no
    warning. *)
Theorem configure_idempotent NewConfig settings :
  let '(settings', config, _) := configure NewConfig settings in
  configure NewConfig settings' = (settings', config, []).
Proof.
  unfold configure.
  destruct settings as [buffer offset root]. simpl.
  destruct (Z.ltb_spec buffer 0) as [Hneg | Hnn];
    [| destruct (Z.ltb_spec 1024 buffer) as [Hbig | Hok]];
    simpl;
    destruct (decide (offset = "newest")) as [Hn | Hn];
    [ | destruct (decide (offset = "oldest")) as [Ho | Ho]
      | | destruct (decide (offset = "oldest")) as [Ho | Ho]
      | | destruct (decide (offset = "oldest")) as [Ho | Ho] ];
    simpl;
    destruct (decide (root <> "" /\ root <> "/")) as [Hr | Hr];
    simpl;
    try (destruct (Z.ltb_spec buffer 0); [lia |]);
    try (destruct (Z.ltb_spec 1024 buffer); [lia |]);
    simpl;
    repeat (case_decide; try congruence; try tauto);
    try reflexivity.
Qed.

End ConsumerSetup.

(** ** The accumulator feeding the persister

    [documentRoutine] receives from [DocumentQueueChan] exactly the batches
    [queueRoutine] sent on it, in order. *)
Module Pipeline.

Lemma batches_of_channel (sent : list (list Document)) :
  Persister.batches (Persister.RecvQueue <$> sent) = sent.
Proof. induction sent as [| batch rest IH]; simpl; [reflexivity | f_equal; exact IH]. Qed.

(** X17.  End to end, for a threshold of at least 1: when the persister
    processes the batches the accumulator has sent, it executes one bulk
    request per batch and no bulk request holds more index operations than
    the threshold. *)
Theorem bulk_requests_within_threshold {Span World BulkResponse : Type}
    (AssembleDocument : Span -> Document + error) (Bulk : Z)
    (IndexExists : string -> World -> World * (bool + error))
    (CreateIndex : string -> string -> World -> World * (bool + error))
    (BulkDo : list Persister.BulkIndexRequest -> World ->
              World * (option BulkResponse * option error))
    (Indexed : BulkResponse -> list Persister.BulkResponseItem)
    (Mappings : string -> string) (clock : nat -> Z)
    (events : list (Accumulator.Select Span)) (st : Persister.State World) :
  (1 <= Bulk)%Z ->
  let s := fst (Accumulator.queueRoutine Span AssembleDocument Bulk events
                  Accumulator.NewCollectorService) in
  let st' := fst (Persister.documentLoop World IndexExists CreateIndex BulkResponse
                    BulkDo Indexed Mappings clock
                    (Persister.RecvQueue <$> Accumulator.DocumentQueueChan s) st) in
  exists reqs,
    Persister.Bulks st' = Persister.Bulks st ++ reqs /\
    length reqs = length (Accumulator.DocumentQueueChan s) /\
    Forall (fun req => (Z.of_nat (length req) <= Bulk)%Z) reqs.
Proof.
  intros HB s st'. subst st'.
  destruct (Accumulator.full_batches_queueRoutine AssembleDocument Bulk ltac:(lia) events)
    as (_ & Hfull).
  fold s in Hfull.
  destruct (Persister.documentLoop_bulks IndexExists CreateIndex BulkDo Indexed Mappings clock
              (Persister.RecvQueue <$> Accumulator.DocumentQueueChan s) st)
    as (reqs & Hbulks & Hall).
  rewrite batches_of_channel in Hall.
  exists reqs. split; [exact Hbulks |]. split; [now apply Forall2_length in Hall |].
  clear Hbulks. revert Hfull.
  induction Hall as [| req batch reqs sent Hsub _ IH]; intros Hfull; constructor.
  - apply Forall_cons in Hfull as [Hlen _].
    apply sublist_length in Hsub. rewrite length_fmap in Hsub. lia.
  - apply IH. now apply Forall_cons in Hfull as [_ Hrest].
Qed.

(** Threshold 2 and documents D1, D2, D3 in front of a cold persister. *)
Lemma bulk_requests_within_threshold_witness :
  (1 <= 2)%Z /\
  let s := fst (Accumulator.queueRoutine Document Accumulator.assembled 2
                  [Accumulator.RecvSpans [Accumulator.D1; Accumulator.D2; Accumulator.D3]]
                  Accumulator.NewCollectorService) in
  let st' := fst (Persister.documentLoop unit Persister.index_present Persister.create_fails
                    (list Persister.BulkResponseItem) Persister.bulk_created
                    Persister.items_of Persister.plain_mappings Persister.stepping_clock
                    (Persister.RecvQueue <$> Accumulator.DocumentQueueChan s)
                    Persister.cold_start) in
  exists reqs,
    Persister.Bulks st' = Persister.Bulks Persister.cold_start ++ reqs /\
    length reqs = length (Accumulator.DocumentQueueChan s) /\
    Forall (fun req => (Z.of_nat (length req) <= 2)%Z) reqs.
Proof.
  split; [lia |].
  apply (bulk_requests_within_threshold Accumulator.assembled 2
           Persister.index_present Persister.create_fails Persister.bulk_created
           Persister.items_of Persister.plain_mappings Persister.stepping_clock
           [Accumulator.RecvSpans [Accumulator.D1; Accumulator.D2; Accumulator.D3]]
           Persister.cold_start).
  lia.
Defined.

End Pipeline.

(** ** The accumulator with its blocking send

    The send at line 141 is a plain send on the unbuffered
    [DocumentQueueChan], made while the lock is held and outside any
    [select]: when the persister takes no more batches the routine stays
    there, with the buffer not yet reset, and never gets back to the
    [select] that watches [ctx.Done].  [receivers] is the number of
    receives the persister still performs on the channel. *)
Module Backpressure.

Section queueRoutine.
Variable Span : Type.
Variable AssembleDocument : Span -> Document + error.
Variable Bulk : Z.

Inductive Status :=
| Parked
| BlockedInSend (queue : list Document)
| Returned (err : error).

Definition completed (status : Status) : bool :=
  match status with
  | BlockedInSend _ => false
  | Parked | Returned _ => true
  end.

(** Lines 135-144; [None] for the receivers left means blocked at line 141. *)
Definition appendOrFlush (doc : Document) (receivers : nat)
    (s : Accumulator.CollectorService Span)
  : Accumulator.CollectorService Span * option nat :=
  if (Z.of_nat (length (Accumulator.DocumentQueue s)) <? Bulk)%Z then
    (Accumulator.mkService Span
       (Accumulator.DocumentQueue s ++ [doc])
       (Accumulator.DocumentQueueChan s)
       (Accumulator.Log s),
     Some receivers)
  else
    match receivers with
    | O => (s, None)
    | S n =>
        (Accumulator.mkService Span
           []
           (Accumulator.DocumentQueueChan s ++ [Accumulator.DocumentQueue s])
           (Accumulator.Log s),
         Some n)
    end.

Fixpoint assignSpansToQueue (spans : list Span) (receivers : nat)
    (s : Accumulator.CollectorService Span)
  : Accumulator.CollectorService Span * option nat :=
  match spans with
  | [] => (s, Some receivers)
  | span :: rest =>
      match AssembleDocument span with
      | inr err =>
          assignSpansToQueue rest receivers
            (Accumulator.logrus (Accumulator.WarnSpanEncode err span) s)
      | inl doc =>
          match appendOrFlush doc receivers s with
          | (s', Some receivers') => assignSpansToQueue rest receivers' s'
          | (s', None) => (s', None)
          end
      end
  end.

Fixpoint queueLoop (events : list (Accumulator.Select Span)) (receivers : nat)
    (s : Accumulator.CollectorService Span)
  : Accumulator.CollectorService Span * Status :=
  match events with
  | [] => (s, Parked)
  | Accumulator.RecvSpans spans :: rest =>
      match assignSpansToQueue spans receivers s with
      | (s', Some receivers') => queueLoop rest receivers' s'
      | (s', None) => (s', BlockedInSend (Accumulator.DocumentQueue s'))
      end
  | Accumulator.CtxDone err :: _ => (Accumulator.logrus Accumulator.InfoDone s, Returned err)
  end.

Definition queueRoutine (events : list (Accumulator.Select Span)) (receivers : nat)
    (s : Accumulator.CollectorService Span)
  : Accumulator.CollectorService Span * Status :=
  queueLoop events receivers (Accumulator.logrus Accumulator.InfoStart s).

End queueRoutine.

Section blocking.
Context {Span : Type}.
Variable AssembleDocument : Span -> Document + error.
Variable Bulk : Z.

Local Abbreviation flush := (appendOrFlush Span Bulk).
Local Abbreviation assign := (assignSpansToQueue Span AssembleDocument Bulk).
Local Abbreviation loop := (queueLoop Span AssembleDocument Bulk).
Local Abbreviation free_assign := (Accumulator.assignSpansToQueue Span AssembleDocument Bulk).
Local Abbreviation free_loop := (Accumulator.queueLoop Span AssembleDocument Bulk).

(** *** The routine of module [Accumulator] is this one when no send blocks *)

Lemma appendOrFlush_completes doc receivers s s' receivers' :
  flush doc receivers s = (s', Some receivers') ->
  s' = Accumulator.appendOrFlush Bulk doc s /\
  length (Accumulator.DocumentQueueChan s') + receivers' =
    length (Accumulator.DocumentQueueChan s) + receivers.
Proof.
  unfold Backpressure.appendOrFlush, Accumulator.appendOrFlush.
  destruct (Z.of_nat (length (Accumulator.DocumentQueue s)) <? Bulk)%Z.
  - intros [= <- <-]. auto.
  - destruct receivers as [| n]; [discriminate |].
    intros [= <- <-]. simpl. rewrite length_app. simpl. split; [reflexivity | lia].
Qed.

Lemma appendOrFlush_blocks doc receivers s s' :
  flush doc receivers s = (s', None) ->
  s' = s /\ receivers = 0 /\ (Bulk <= Z.of_nat (length (Accumulator.DocumentQueue s)))%Z.
Proof.
  unfold Backpressure.appendOrFlush.
  destruct (Z.ltb_spec (Z.of_nat (length (Accumulator.DocumentQueue s))) Bulk);
    [discriminate |].
  destruct receivers as [| n]; [| discriminate].
  intros [= <-]. auto.
Qed.

Lemma assign_completes spans : forall receivers s s' receivers',
  assign spans receivers s = (s', Some receivers') ->
  s' = free_assign spans s /\
  length (Accumulator.DocumentQueueChan s') + receivers' =
    length (Accumulator.DocumentQueueChan s) + receivers.
Proof.
  induction spans as [| span rest IH]; intros receivers s s' receivers'; simpl.
  - intros [= <- <-]. auto.
  - destruct (AssembleDocument span) as [doc | err].
    + destruct (flush doc receivers s) as [s1 [r1 |]] eqn:Hstep; [| discriminate].
      apply appendOrFlush_completes in Hstep as (-> & Hlen).
      intros Hrest. apply IH in Hrest as (-> & Hlen'). split; [reflexivity | lia].
    + intros Hrest. apply IH in Hrest as (-> & Hlen'). auto.
Qed.

Lemma assign_blocks spans : forall receivers s s',
  assign spans receivers s = (s', None) ->
  (Bulk <= Z.of_nat (length (Accumulator.DocumentQueue s')))%Z /\
  length (Accumulator.DocumentQueueChan s') =
    length (Accumulator.DocumentQueueChan s) + receivers /\
  Accumulator.DocumentQueueChan s' `prefix_of`
    Accumulator.DocumentQueueChan (free_assign spans s).
Proof.
  induction spans as [| span rest IH]; intros receivers s s'; simpl; [discriminate |].
  destruct (AssembleDocument span) as [doc | err].
  - destruct (flush doc receivers s) as [s1 [r1 |]] eqn:Hstep.
    + apply appendOrFlush_completes in Hstep as (-> & Hlen).
      intros Hrest. apply IH in Hrest as (Hfull & Hlen' & Hpre).
      split; [exact Hfull |]. split; [lia | exact Hpre].
    + apply appendOrFlush_blocks in Hstep as (-> & -> & Hfull).
      intros [= <-]. split; [exact Hfull |]. split; [lia |].
      assert (Hgrow : forall spans t,
                Accumulator.DocumentQueueChan t `prefix_of`
                Accumulator.DocumentQueueChan (free_assign spans t)).
      { clear. induction spans as [| sp more IHs]; intros t; simpl; [reflexivity |].
        destruct (AssembleDocument sp) as [d | e].
        - etransitivity; [| apply IHs].
          unfold Accumulator.appendOrFlush.
          destruct (Z.of_nat (length (Accumulator.DocumentQueue t)) <? Bulk)%Z; simpl;
            [reflexivity | apply prefix_app_r; reflexivity].
        - apply (IHs (Accumulator.logrus (Accumulator.WarnSpanEncode e sp) t)). }
      etransitivity; [| apply Hgrow].
      unfold Accumulator.appendOrFlush.
      destruct (Z.of_nat (length (Accumulator.DocumentQueue s)) <? Bulk)%Z; simpl;
        [reflexivity | apply prefix_app_r; reflexivity].
  - intros Hrest. apply IH in Hrest as (Hfull & Hlen' & Hpre). auto.
Qed.

Lemma blocking_assign_app spans1 spans2 : forall receivers s,
  assign (spans1 ++ spans2) receivers s =
    match assign spans1 receivers s with
    | (s', Some receivers') => assign spans2 receivers' s'
    | (s', None) => (s', None)
    end.
Proof.
  induction spans1 as [| span rest IH]; intros receivers s; simpl; [reflexivity |].
  destruct (AssembleDocument span) as [doc | err]; [| apply IH].
  destruct (flush doc receivers s) as [s1 [r1 |]]; [apply IH | reflexivity].
Qed.

Lemma blocking_queueLoop_received events : forall receivers s,
  loop events receivers s =
    match assign (Accumulator.received events) receivers s with
    | (t, None) => (t, BlockedInSend (Accumulator.DocumentQueue t))
    | (t, Some _) =>
        match Accumulator.cancelled events with
        | Some err => (Accumulator.logrus Accumulator.InfoDone t, Returned err)
        | None => (t, Parked)
        end
    end.
Proof.
  induction events as [| [spans | err] rest IH]; intros receivers s; simpl;
    try reflexivity.
  rewrite blocking_assign_app.
  destruct (assign spans receivers s) as [s1 [r1 |]]; [apply IH | reflexivity].
Qed.

Lemma queueLoop_completes events : forall receivers s,
  completed (snd (loop events receivers s)) = true ->
  fst (loop events receivers s) = fst (free_loop events s).
Proof.
  induction events as [| [spans | err] rest IH]; intros receivers s; simpl;
    try reflexivity.
  destruct (assign spans receivers s) as [s1 [r1 |]] eqn:Hassign; [| discriminate].
  apply assign_completes in Hassign as (-> & _). apply IH.
Qed.

Lemma appendOrFlush_count doc (s : Accumulator.CollectorService Span) :
  Accumulator.held (Accumulator.appendOrFlush Bulk doc s) +
    length (Accumulator.DocumentQueueChan (Accumulator.appendOrFlush Bulk doc s)) =
  Accumulator.held s + length (Accumulator.DocumentQueueChan s) + 1.
Proof.
  unfold Accumulator.appendOrFlush, Accumulator.held.
  destruct (Z.of_nat (length (Accumulator.DocumentQueue s)) <? Bulk)%Z; simpl.
  - rewrite length_app. simpl. lia.
  - rewrite sum_list_with_app, length_app. simpl. lia.
Qed.

Lemma assign_never_invents spans : forall receivers s,
  let t := fst (assign spans receivers s) in
  Accumulator.held t + length (Accumulator.DocumentQueueChan t) <=
  Accumulator.held s + length (Accumulator.DocumentQueueChan s) +
    Accumulator.assembling AssembleDocument spans.
Proof.
  induction spans as [| span rest IH]; intros receivers s; simpl; [lia |].
  destruct (AssembleDocument span) as [doc | err].
  - destruct (flush doc receivers s) as [s1 [r1 |]] eqn:Hstep; simpl.
    + apply appendOrFlush_completes in Hstep as (-> & _).
      specialize (IH r1 (Accumulator.appendOrFlush Bulk doc s)). simpl in IH.
      pose proof (appendOrFlush_count doc s) as Hone. lia.
    + apply appendOrFlush_blocks in Hstep as (-> & _). lia.
  - specialize (IH receivers (Accumulator.logrus (Accumulator.WarnSpanEncode err span) s)).
    simpl in IH. unfold Accumulator.held in *. simpl in *. lia.
Qed.

(** The batches sent when sends may block are a prefix of the batches
    sent when every send completes, so what module [Accumulator] proves of
    every batch sent holds here too. *)
Lemma sent_batches_prefix events receivers s :
  Accumulator.DocumentQueueChan (fst (loop events receivers s)) `prefix_of`
  Accumulator.DocumentQueueChan (fst (free_loop events s)).
Proof.
  destruct (completed (snd (loop events receivers s))) eqn:Hdone.
  - now rewrite (queueLoop_completes _ _ _ Hdone).
  - rewrite blocking_queueLoop_received in Hdone |- *.
    rewrite (Accumulator.queueLoop_received AssembleDocument Bulk).
    destruct (assign (Accumulator.received events) receivers s) as [t [r |]] eqn:Hassign.
    + destruct (Accumulator.cancelled events); discriminate Hdone.
    + apply assign_blocks in Hassign as (_ & _ & Hpre).
      destruct (Accumulator.cancelled events); exact Hpre.
Qed.

(** So, for a threshold of zero or more, every batch the routine has sent
    from the initial service is exactly full also when sends may block. *)
Lemma blocking_batches_full events receivers :
  (0 <= Bulk)%Z ->
  Forall (fun batch => Z.of_nat (length batch) = Bulk)
    (Accumulator.DocumentQueueChan
       (fst (queueRoutine Span AssembleDocument Bulk events receivers
               Accumulator.NewCollectorService))).
Proof.
  intros HB.
  destruct (Accumulator.full_batches_queueRoutine AssembleDocument Bulk HB events)
    as (_ & Hfull).
  pose proof (sent_batches_prefix events receivers
                (Accumulator.logrus Accumulator.InfoStart Accumulator.NewCollectorService))
    as [rest Hpre].
  unfold queueRoutine, Accumulator.queueRoutine in *.
  rewrite Hpre in Hfull. now apply Forall_app in Hfull as [Hsent _].
Qed.

(** X1.  The accumulator loop is determined by the spans received before
    the first [ctx.Done], taken as one sequence, and by the number of
    batches the persister still takes.  If a flush finds no receiver, the
    routine stays blocked in that send, with the full buffer not reset and
    every receiver used up, and neither later spans nor [ctx.Done] are ever
    seen.  Otherwise how the spans were grouped into channel messages does
    not matter, everything after the first [ctx.Done] is ignored, and on
    [ctx.Done] the routine only logs and returns the context's error,
    leaving the buffer unflushed. *)
Theorem queueLoop_by_received_spans events receivers s :
  loop events receivers s =
    match assign (Accumulator.received events) receivers s with
    | (t, None) => (t, BlockedInSend (Accumulator.DocumentQueue t))
    | (t, Some _) =>
        match Accumulator.cancelled events with
        | Some err => (Accumulator.logrus Accumulator.InfoDone t, Returned err)
        | None => (t, Parked)
        end
    end /\
  (forall t, assign (Accumulator.received events) receivers s = (t, None) ->
     (Bulk <= Z.of_nat (length (Accumulator.DocumentQueue t)))%Z /\
     length (Accumulator.DocumentQueueChan t) =
       length (Accumulator.DocumentQueueChan s) + receivers).
Proof.
  split; [apply blocking_queueLoop_received |].
  intros t Hblocked. apply assign_blocks in Hblocked as (Hfull & Hlen & _). auto.
Qed.

(** X4.  In any run of the routine from the initial service the documents
    held (buffered or in sent batches) plus the batches sent never exceed
    the documents assembled from the spans offered; and in a run in which
    no send blocks they are equal: each flush loses exactly the one
    document that triggered it and nothing else is lost. *)
Theorem documents_lost_equal_batches_sent events receivers :
  let run := queueRoutine Span AssembleDocument Bulk events receivers
               Accumulator.NewCollectorService in
  let n := Accumulator.assembling AssembleDocument (Accumulator.received events) in
  Accumulator.held (fst run) + length (Accumulator.DocumentQueueChan (fst run)) <= n /\
  (completed (snd run) = true ->
   n = Accumulator.held (fst run) + length (Accumulator.DocumentQueueChan (fst run))).
Proof.
  intros run n. subst run n. unfold queueRoutine. split.
  - rewrite blocking_queueLoop_received.
    pose proof (assign_never_invents (Accumulator.received events) receivers
                  (Accumulator.logrus Accumulator.InfoStart Accumulator.NewCollectorService))
      as Hle.
    simpl in Hle.
    destruct (assign (Accumulator.received events) receivers _) as [t [r |]];
      [destruct (Accumulator.cancelled events) |]; simpl in *;
      unfold Accumulator.held in *; simpl in *; lia.
  - intros Hdone. rewrite (queueLoop_completes _ _ _ Hdone).
    apply (Accumulator.queueRoutine_count AssembleDocument Bulk events).
Qed.

(** X18.  For a threshold of zero or more, a run from the initial service
    in which no send blocks and which has assembled [n] documents has sent
    [n / (Bulk + 1)] batches, holds [n mod (Bulk + 1)] documents in the
    buffer, and has dropped [n / (Bulk + 1)] documents: one document in
    every [Bulk + 1] is lost. *)
Theorem one_in_every_cycle_dropped events receivers :
  (0 <= Bulk)%Z ->
  let run := queueRoutine Span AssembleDocument Bulk events receivers
               Accumulator.NewCollectorService in
  completed (snd run) = true ->
  let n := Z.of_nat (Accumulator.assembling AssembleDocument (Accumulator.received events)) in
  Z.of_nat (length (Accumulator.DocumentQueueChan (fst run))) = (n / (Bulk + 1))%Z /\
  Z.of_nat (length (Accumulator.DocumentQueue (fst run))) = (n mod (Bulk + 1))%Z /\
  (n - Z.of_nat (Accumulator.held (fst run)))%Z = (n / (Bulk + 1))%Z.
Proof.
  intros HB run Hdone n. subst run.
  unfold queueRoutine in *. rewrite (queueLoop_completes _ _ _ Hdone).
  pose proof (Accumulator.queueRoutine_count AssembleDocument Bulk events) as Hcount.
  cbv zeta in Hcount.
  destruct (Accumulator.full_batches_queueRoutine AssembleDocument Bulk HB events)
    as (Hlen & Hfull).
  unfold Accumulator.queueRoutine in Hcount, Hlen, Hfull.
  set (s := fst (free_loop events
                   (Accumulator.logrus Accumulator.InfoStart Accumulator.NewCollectorService)))
    in *.
  pose proof (Accumulator.held_full_batches Bulk s Hfull) as Hheld.
  assert (Hn : n = ((Bulk + 1) * Z.of_nat (length (Accumulator.DocumentQueueChan s))
                    + Z.of_nat (length (Accumulator.DocumentQueue s)))%Z) by (unfold n; lia).
  assert (Hdiv : Z.of_nat (length (Accumulator.DocumentQueueChan s)) = (n / (Bulk + 1))%Z).
  { apply Z.div_unique with (r := Z.of_nat (length (Accumulator.DocumentQueue s)));
      [lia | exact Hn]. }
  split; [exact Hdiv |]. split.
  - apply Z.mod_unique with (q := Z.of_nat (length (Accumulator.DocumentQueueChan s)));
      [lia | exact Hn].
  - rewrite <- Hdiv. unfold n. lia.
Qed.

End blocking.

(** Threshold 2, seven documents and a persister that takes both batches:
    two batches, one document buffered, two documents dropped. *)
Lemma one_in_every_cycle_dropped_witness :
  (0 <= 2)%Z /\
  let events := [Accumulator.RecvSpans
                   [Accumulator.D1; Accumulator.D2; Accumulator.D3; Accumulator.D1];
                 Accumulator.RecvSpans [Accumulator.D2; Accumulator.D3; Accumulator.D1]] in
  let run := queueRoutine Document Accumulator.assembled 2 events 2
               Accumulator.NewCollectorService in
  completed (snd run) = true /\
  let n := Z.of_nat (Accumulator.assembling Accumulator.assembled
                       (Accumulator.received events)) in
  Z.of_nat (length (Accumulator.DocumentQueueChan (fst run))) = (n / (2 + 1))%Z /\
  Z.of_nat (length (Accumulator.DocumentQueue (fst run))) = (n mod (2 + 1))%Z /\
  (n - Z.of_nat (Accumulator.held (fst run)))%Z = (n / (2 + 1))%Z.
Proof.
  split; [lia |]. intros events run. split; [reflexivity |].
  apply (one_in_every_cycle_dropped Accumulator.assembled 2 events 2); [lia | reflexivity].
Defined.

End Backpressure.

(** ** The hand-over between the consumer and the accumulator

    Both routines as goroutines that meet on the unbuffered
    [SpansProcessingChan]: the send at line 112 completes together with the
    receive at line 150, and from then on the two run independently, the
    consumer towards [CommitUpto] (line 113) and the accumulator through
    its range loop (lines 126-145).  A schedule says which goroutine moves
    next; a goroutine that cannot move is skipped. *)
Module Handoff.

Inductive Goroutine :=
| ConsumerRuns
| AccumulatorRuns.

Section system.
Variable Span : Type.
Variable GetMessageBody : string -> string * option error.
Variable ToSpans : string -> list Span * option error.
Variable AssembleDocument : Span -> Document + error.
Variable Bulk : Z.

Inductive Event :=
| Sent (message : Consumer.ConsumerMessage)
| Committed (message : Consumer.ConsumerMessage)
| Assembled (span : Span).

(** [Inbox]: the messages [Consumer.Messages()] still delivers.
    [Uncommitted]: the consumer stands between lines 112 and 113 with this
    message.  [Pending]: the spans the accumulator's range loop has still
    to take; empty when it is parked in [select].  [Stuck]: the accumulator
    is blocked in the flush at line 141.  [Receivers]: the receives the
    persister still performs on [DocumentQueueChan]. *)
Record System := mkSystem {
  Inbox : list Consumer.ConsumerMessage;
  Uncommitted : option Consumer.ConsumerMessage;
  Pending : list Span;
  Stuck : bool;
  Receivers : nat;
  Service : Accumulator.CollectorService Span
}.

Definition step (g : Goroutine) (sys : System) : option (Event * System) :=
  match g with
  | ConsumerRuns =>
      match Uncommitted sys with
      | Some message =>
          Some (Committed message,
                mkSystem (Inbox sys) None (Pending sys) (Stuck sys) (Receivers sys)
                  (Service sys))
      | None =>
          match Inbox sys, Pending sys, Stuck sys with
          | message :: inbox, [], false =>
              Some (Sent message,
                    mkSystem inbox (Some message)
                      (Consumer.spans_of (list Span) GetMessageBody ToSpans message)
                      false (Receivers sys) (Service sys))
          | _, _, _ => None
          end
      end
  | AccumulatorRuns =>
      match Pending sys, Stuck sys with
      | span :: rest, false =>
          match Backpressure.assignSpansToQueue Span AssembleDocument Bulk [span]
                  (Receivers sys) (Service sys) with
          | (service, Some receivers) =>
              Some (Assembled span,
                    mkSystem (Inbox sys) (Uncommitted sys) rest false receivers service)
          | (service, None) =>
              Some (Assembled span,
                    mkSystem (Inbox sys) (Uncommitted sys) rest true 0 service)
          end
      | _, _ => None
      end
  end.

Fixpoint run (schedule : list Goroutine) (sys : System) : list Event :=
  match schedule with
  | [] => []
  | g :: rest =>
      match step g sys with
      | Some (event, sys') => event :: run rest sys'
      | None => run rest sys
      end
  end.

End system.

Arguments Sent {Span} message.
Arguments Committed {Span} message.
Arguments Assembled {Span} span.

(** One message whose payload decodes to one span, which assembles. *)
Definition M1 : Consumer.ConsumerMessage := Consumer.mkMessage "traces" 0 7 "span-a".
Definition whole_body (value : string) : string * option error := (value, None).
Definition one_span (traceLog : string) : list string * option error := ([traceLog], None).
Definition to_document (span : string) : Document + error :=
  inl (mkDocument "traces-1" "traces" "span" span).
Definition at_start : System string :=
  mkSystem string [M1] None [] false 0 Accumulator.NewCollectorService.

(** C5 (counterexample).  After the hand-over of a message's spans the
    accumulator may assemble them before the consumer commits the offset:
    with the accumulator scheduled between the send and the commit, the
    span of the message is assembled first and the message committed after
    it.  (With the consumer scheduled twice in a row the commit comes
    first; the code fixes neither order.) *)
Lemma assembly_may_precede_commit :
  run string whole_body one_span to_document 2
    [ConsumerRuns; AccumulatorRuns; ConsumerRuns] at_start
    = [Sent M1; Assembled "span-a"; Committed M1] /\
  run string whole_body one_span to_document 2
    [ConsumerRuns; ConsumerRuns; AccumulatorRuns] at_start
    = [Sent M1; Committed M1; Assembled "span-a"].
Proof. split; vm_compute; reflexivity. Qed.

End Handoff.
